(** * EmployeeScheduler: the three-pass shift assignment of final_scheduler.py

    A shallow embedding of the class [EmployeeScheduler] (its constructor,
    [add_employee], [assign_shifts], [_ensure_minimum_coverage] and
    [_resolve_conflicts]) together with the properties of the weekly grid the
    design document states about it.

    Modelling choices, each next to the code it stands for:
    - names of employees are strings; the seven day names and the three shift
      names are the constructors of [Day] and [Shift] (the code keeps them as
      the constant lists [DAYS] and [SHIFTS] and indexes the schedule by them);
    - [self.preferences] is a finite map from names to plans, a plan a finite
      map from days to a list of shifts (any length, duplicates allowed);
    - [self.schedule] is a total grid from a day and a shift to the list of
      names placed there, in insertion order;
    - [self.employee_days_worked] is a [defaultdict(int)]: a finite map read
      with default 0;
    - [self.preferences[employee]] raises KeyError for a name without an
      entry: the passes that perform it return a [result];
    - [for day in missing_days] walks a Python set, whose order the language
      does not fix: the third pass takes the enumeration as a parameter. *)

From stdpp Require Import gmap strings list fin_maps fin_sets.

(** ** Days, shifts and the constants of the class *)

Inductive Day :=
  Monday | Tuesday | Wednesday | Thursday | Friday | Saturday | Sunday.

Inductive Shift := Morning | Afternoon | Evening.

#[global] Instance Day_eq_dec : EqDecision Day.
Proof. solve_decision. Defined.

#[global] Instance Shift_eq_dec : EqDecision Shift.
Proof. solve_decision. Defined.

Definition day_index (d : Day) : nat :=
  match d with
  | Monday => 0 | Tuesday => 1 | Wednesday => 2 | Thursday => 3
  | Friday => 4 | Saturday => 5 | Sunday => 6
  end.

Definition day_of_index (n : nat) : Day :=
  match n with
  | 0 => Monday | 1 => Tuesday | 2 => Wednesday | 3 => Thursday
  | 4 => Friday | 5 => Saturday | _ => Sunday
  end.

#[global] Instance Day_countable : Countable Day.
Proof. refine (inj_countable' day_index day_of_index _). by intros []. Defined.

Definition DAYS : list Day :=
  [Monday; Tuesday; Wednesday; Thursday; Friday; Saturday; Sunday].

Definition SHIFTS : list Shift := [Morning; Afternoon; Evening].

Definition MAX_DAYS_PER_WEEK : nat := 5.

Definition MIN_EMPLOYEES_PER_SHIFT : nat := 2.

(** ** The scheduler object *)

Abbreviation Plan := (gmap Day (list Shift)).

Abbreviation Grid := (Day → Shift → list string).

Record State := mkState {
  employees : list string;
  preferences : gmap string Plan;
  schedule : Grid;
  employee_days_worked : gmap string nat
}.

(** [__init__]: no employee, no preference, every slot empty, no counter. *)
Definition init : State :=
  {| employees := [];
     preferences := ∅;
     schedule := λ _ _, [];
     employee_days_worked := ∅ |}.

(** [add_employee]: a name already registered is ignored. *)
Definition add_employee (name : string) (shift_preferences : Plan)
    (st : State) : State :=
  if bool_decide (name ∈ employees st) then st
  else {| employees := employees st ++ [name];
          preferences := <[name := shift_preferences]> (preferences st);
          schedule := schedule st;
          employee_days_worked := employee_days_worked st |}.

(** A scheduler as a caller builds it: [__init__], then one [add_employee]
    per entry, in order. *)
Definition build (regs : list (string * Plan)) : State :=
  foldl (λ st r, add_employee r.1 r.2 st) init regs.

(** ** Reads and the one write *)

(** [self.employee_days_worked[employee]] *)
Definition days_worked (st : State) (employee : string) : nat :=
  default 0 (employee_days_worked st !! employee).

(** [any(employee in self.schedule[day][shift] for shift in self.SHIFTS)] *)
Definition already_scheduled (st : State) (employee : string) (day : Day)
    : bool :=
  existsb (λ shift, bool_decide (employee ∈ schedule st day shift)) SHIFTS.

(** [self.schedule[day][shift].append(employee)] *)
Definition append_slot (g : Grid) (day : Day) (shift : Shift)
    (employee : string) : Grid :=
  λ d s, if bool_decide (d = day ∧ s = shift) then g d s ++ [employee]
         else g d s.

(** The two statements every pass runs together:
    [self.schedule[day][shift].append(employee)] and
    [self.employee_days_worked[employee] += 1]. *)
Definition place (employee : string) (day : Day) (shift : Shift)
    (st : State) : State :=
  {| employees := employees st;
     preferences := preferences st;
     schedule := append_slot (schedule st) day shift employee;
     employee_days_worked :=
       <[employee := S (days_worked st employee)]> (employee_days_worked st) |}.

(** ** Failure: the lookup of a name that has no preference entry *)

Inductive result (A : Type) :=
  | Ok (a : A)
  | UnknownEmployee (name : string).
Arguments Ok {A} a.
Arguments UnknownEmployee {A} name.

#[global] Instance result_ret : MRet result := λ A a, Ok a.

#[global] Instance result_bind : MBind result := λ A B f r,
  match r with
  | Ok a => f a
  | UnknownEmployee name => UnknownEmployee name
  end.

(** [self.preferences[employee]] *)
Definition get_plan (st : State) (employee : string) : result Plan :=
  match preferences st !! employee with
  | Some plan => Ok plan
  | None => UnknownEmployee employee
  end.

(** ** First pass (the body of [assign_shifts] before the two calls) *)

(** The loop [for day in self.DAYS] of one employee. Its body reads the
    counter, leaves the loop when the cap is reached, and otherwise looks the
    day up in the employee's plan. The loop over [preferred_shifts] ends with
    an unconditional [break], so it runs for the head of the list only; with
    an empty list [assigned] stays false and the day loop is left. *)
Fixpoint pass1_days (employee : string) (days : list Day) (st : State)
    : result State :=
  match days with
  | [] => Ok st
  | day :: rest =>
      if bool_decide (MAX_DAYS_PER_WEEK ≤ days_worked st employee) then Ok st
      else
        plan ← get_plan st employee;
        match plan !! day with
        | None => pass1_days employee rest st
        | Some preferred_shifts =>
            if already_scheduled st employee day
            then pass1_days employee rest st
            else
              match preferred_shifts with
              | preferred_shift :: _ =>
                  pass1_days employee rest
                    (place employee day preferred_shift st)
              | [] => Ok st
              end
        end
  end.

(** The loop [for employee in self.employees]. *)
Fixpoint pass1_employees (emps : list string) (st : State) : result State :=
  match emps with
  | [] => Ok st
  | employee :: rest =>
      st' ← pass1_days employee DAYS st;
      pass1_employees rest st'
  end.

Definition first_pass (st : State) : result State :=
  pass1_employees (employees st) st.

(** ** Second pass: [_ensure_minimum_coverage] *)

(** The loop [for employee in self.employees] inside the [while]: the first
    employee who passes the three tests is placed and the loop is left. The
    second component is the flag [assigned]. *)
Fixpoint scan_employees (day : Day) (shift : Shift) (emps : list string)
    (st : State) : State * bool :=
  match emps with
  | [] => (st, false)
  | employee :: rest =>
      if bool_decide (MAX_DAYS_PER_WEEK ≤ days_worked st employee)
      then scan_employees day shift rest st
      else if already_scheduled st employee day
      then scan_employees day shift rest st
      else if bool_decide (employee ∉ schedule st day shift)
      then (place employee day shift st, true)
      else scan_employees day shift rest st
  end.

(** [while current_count < self.MIN_EMPLOYEES_PER_SHIFT]. Every turn that
    does not leave the loop adds one to [current_count], so the loop takes at
    most [MIN_EMPLOYEES_PER_SHIFT - current_count] turns; [fuel] bounds them
    ([fill_slot_fuel] below: that much fuel is never used up). *)
Fixpoint fill_slot (fuel : nat) (day : Day) (shift : Shift)
    (current_count : nat) (st : State) : State :=
  match fuel with
  | 0 => st
  | S fuel' =>
      if bool_decide (current_count < MIN_EMPLOYEES_PER_SHIFT) then
        let '(st', assigned) := scan_employees day shift (employees st) st in
        if assigned then fill_slot fuel' day shift (S current_count) st'
        else st'
      else st
  end.

(** One slot: [current_count = len(self.schedule[day][shift])], then the
    [while]. *)
Definition ensure_slot (day : Day) (shift : Shift) (st : State) : State :=
  fill_slot MIN_EMPLOYEES_PER_SHIFT day shift
    (length (schedule st day shift)) st.

(** [for day in self.DAYS: for shift in self.SHIFTS: ...] *)
Definition _ensure_minimum_coverage (st : State) : State :=
  foldl (λ st day, foldl (λ st shift, ensure_slot day shift st) st SHIFTS)
    st DAYS.

(** ** Third pass: [_resolve_conflicts] *)

(** The two nested loops that fill [scheduled_days]. *)
Definition scheduled_days_of (st : State) (employee : string) : gset Day :=
  foldl (λ acc day,
    foldl (λ acc shift,
      if bool_decide (employee ∈ schedule st day shift)
      then {[day]} ∪ acc else acc) acc SHIFTS) ∅ DAYS.

(** [for shift in priority_shifts]: the first shift the employee is not in
    receives the employee and the loop is left. *)
Fixpoint try_shifts (employee : string) (day : Day) (shifts : list Shift)
    (st : State) : option State :=
  match shifts with
  | [] => None
  | shift :: rest =>
      if bool_decide (employee ∉ schedule st day shift)
      then Some (place employee day shift st)
      else try_shifts employee day rest st
  end.

(** [for day in missing_days], over the days in the order the set yields
    them. [scheduled_days] is the set the loop itself extends; [fallback] is
    the second argument of [.get(day, self.SHIFTS)]. *)
Fixpoint resolve_days (fallback : list Shift) (employee : string)
    (plan : Plan) (days : list Day) (scheduled_days : gset Day) (st : State)
    : State :=
  match days with
  | [] => st
  | day :: rest =>
      if bool_decide (MAX_DAYS_PER_WEEK ≤ days_worked st employee) then st
      else if bool_decide (day ∈ scheduled_days)
      then resolve_days fallback employee plan rest scheduled_days st
      else
        let priority_shifts := default fallback (plan !! day) in
        match try_shifts employee day priority_shifts st with
        | Some st' =>
            resolve_days fallback employee plan rest
              ({[day]} ∪ scheduled_days) st'
        | None =>
            resolve_days fallback employee plan rest scheduled_days st
        end
  end.

(** The enumeration of a Python set: some list of its elements. *)
Abbreviation SetOrder := (gset Day → list Day).

(** The body of [for employee in self.employees]. *)
Definition resolve_employee (fallback : list Shift) (iter : SetOrder)
    (employee : string) (st : State) : result State :=
  plan ← get_plan st employee;
  let preferred_days := dom plan in
  let scheduled_days := scheduled_days_of st employee in
  let missing_days := preferred_days ∖ scheduled_days in
  Ok (resolve_days fallback employee plan (iter missing_days)
        scheduled_days st).

Fixpoint resolve_employees (fallback : list Shift) (iter : SetOrder)
    (emps : list string) (st : State) : result State :=
  match emps with
  | [] => Ok st
  | employee :: rest =>
      st' ← resolve_employee fallback iter employee st;
      resolve_employees fallback iter rest st'
  end.

Definition _resolve_conflicts (iter : SetOrder) (st : State) : result State :=
  resolve_employees SHIFTS iter (employees st) st.

(** ** [assign_shifts] *)

Definition assign_shifts (iter : SetOrder) (st : State) : result State :=
  st1 ← first_pass st;
  _resolve_conflicts iter (_ensure_minimum_coverage st1).

(** ** Enumerations of a set *)

(** What Python promises of [for day in missing_days]: every element once. *)
Definition set_order (iter : SetOrder) : Prop :=
  ∀ X : gset Day, iter X ≡ₚ elements X.

(** Two enumerations: by the calendar, and by the calendar backwards. *)
Definition calendar_order : SetOrder :=
  λ X, filter (λ d, d ∈ X) DAYS.


(** ** Properties the design document names *)

(** Every registered name has a preference entry. *)
Definition registered (st : State) : Prop :=
  Forall (λ e, is_Some (preferences st !! e)) (employees st).

(** No employee stands in two shifts of one day. *)
Definition no_double_booking (st : State) : Prop :=
  ∀ e d s1 s2, e ∈ schedule st d s1 → e ∈ schedule st d s2 → s1 = s2.

(** No counter exceeds the weekly cap. *)
Definition cap_respected (st : State) : Prop :=
  ∀ e, days_worked st e ≤ MAX_DAYS_PER_WEEK.

(** The number of days on which the employee stands in some shift. *)
Definition days_assigned (st : State) (e : string) : nat :=
  length (filter (λ d, Is_true (already_scheduled st e d)) DAYS).

(** Every counter is the number of days its employee is scheduled on. *)
Definition counters_consistent (st : State) : Prop :=
  ∀ e, days_worked st e = days_assigned st e.

(** [st'] extends [st]: every slot of [st] is a prefix of the same slot of
    [st'], and no counter is smaller. *)
Definition extends (st st' : State) : Prop :=
  (∀ d s, schedule st d s `prefix_of` schedule st' d s) ∧
  (∀ e, days_worked st e ≤ days_worked st' e).

(** A run of single assignments, each of an employee who is below the cap
    and free on that day at the moment of the assignment. *)
Inductive placements : State → State → Prop :=
  | placements_refl st : placements st st
  | placements_step st st' e d s :
      placements st st' →
      days_worked st' e < MAX_DAYS_PER_WEEK →
      already_scheduled st' e d = false →
      placements st (place e d s st').

(** The employee of Pass 2: below the cap, free that day, not in the slot. *)
Definition available (st : State) (day : Day) (shift : Shift) (e : string)
    : Prop :=
  days_worked st e < MAX_DAYS_PER_WEEK ∧
  already_scheduled st e day = false ∧
  e ∉ schedule st day shift.

#[global] Instance available_dec st day shift e :
  Decision (available st day shift e).
Proof. unfold available. apply _. Defined.

(** The first available employee in registration order, as the design
    document words the scan of Pass 2. *)
Definition first_available (st : State) (day : Day) (shift : Shift)
    : option string :=
  head (filter (available st day shift) (employees st)).

(** The slots in the order Pass 2 visits them. *)
Definition slots : list (Day * Shift) :=
  d ← DAYS; s ← SHIFTS; [(d, s)].

(** No plan maps a day to the empty sequence. *)
Definition no_empty_sequence (st : State) : Prop :=
  map_Forall (λ _ (plan : Plan),
    map_Forall (λ _ (shifts : list Shift), shifts ≠ []) plan) (preferences st).


(** The days [for day in self.DAYS] visits before it reaches [day]. *)
Definition days_before (day : Day) : list Day :=
  take (day_index day) DAYS.

(** The employee is at the cap or stands in a shift of every day of the
    plan. *)
Definition settled (st : State) (e : string) : Prop :=
  ∀ plan, preferences st !! e = Some plan →
    MAX_DAYS_PER_WEEK ≤ days_worked st e ∨
    ∀ d, is_Some (plan !! d) → already_scheduled st e d = true.

#[global] Instance result_fmap : FMap result := λ A B f r,
  match r with
  | Ok a => Ok (f a)
  | UnknownEmployee name => UnknownEmployee name
  end.

(** The scheduler a failed run leaves aside: the result, or [st]. *)
Definition from_result (st : State) (r : result State) : State :=
  match r with Ok st' => st' | UnknownEmployee _ => st end.


(** ** Schedulers the statements below are tried on *)

(** A plan from its entries, as a dict literal gives them. *)
Definition plan_of (l : list (Day * list Shift)) : Plan := list_to_map l.

(** Alice and Bob both ask for Monday morning. *)
Definition two_mornings : State :=
  build [("Alice", plan_of [(Monday, [Morning])]);
         ("Bob", plan_of [(Monday, [Morning])])].

(** Monday is in the plan, with no shift; Tuesday has one. *)
Definition empty_monday : State :=
  build [("Alice", plan_of [(Monday, []); (Tuesday, [Morning])])].

(** Six employees without a preference, then Alice, whose plan has no shift
    for Monday and the morning for Tuesday to Friday. *)
Definition staffed_week : State :=
  build [("e1", ∅); ("e2", ∅); ("e3", ∅); ("e4", ∅); ("e5", ∅); ("e6", ∅);
         ("Alice", plan_of [(Monday, []); (Tuesday, [Morning]);
                            (Wednesday, [Morning]); (Thursday, [Morning]);
                            (Friday, [Morning])])].

(** ** Further notions, for the properties of whole runs *)

(** Every name in a slot of [st'] is in the same slot of [st] or in
    [names]. *)
Definition only_adds (names : list string) (st st' : State) : Prop :=
  ∀ e d s, e ∈ schedule st' d s → e ∈ schedule st d s ∨ e ∈ names.

(** No slot lists a name twice. *)
Definition slots_duplicate_free (st : State) : Prop :=
  ∀ d s, NoDup (schedule st d s).

(** Every slot holds the minimum or nobody can be added to it. *)
Definition coverage_maximal (st : State) : Prop :=
  ∀ d s, MIN_EMPLOYEES_PER_SHIFT ≤ length (schedule st d s) ∨
         ∀ e, e ∈ employees st → ¬ available st d s e.

(** The employee is at the cap or stands in a shift of every day for which
    the plan names at least one shift. *)
Definition saturated (st : State) (e : string) : Prop :=
  ∀ plan, preferences st !! e = Some plan →
    MAX_DAYS_PER_WEEK ≤ days_worked st e ∨
    ∀ d shifts, plan !! d = Some shifts → shifts ≠ [] →
      already_scheduled st e d = true.

(** The plan the first registration under [name] gave, if any. *)
Definition first_registration (regs : list (string * Plan)) (name : string)
    : option Plan :=
  snd <$> head (filter (λ r, r.1 = name) regs).

(** The first shift of the sequence the plan gives the day. *)
Definition first_choice (plan : Plan) (d : Day) : option Shift :=
  plan !! d ≫= head.

(** The days up to the first one the plan maps to the empty sequence. *)
Fixpoint days_until_empty (plan : Plan) (days : list Day) : list Day :=
  match days with
  | [] => []
  | d :: rest =>
      if decide (plan !! d = Some []) then []
      else d :: days_until_empty plan rest
  end.

(** The days of [days] Pass 1 serves for a plan when [budget] more days may
    be worked: the first [budget] days of the plan, counted up to the first
    day with an empty sequence. *)
Definition pass1_days_served (plan : Plan) (days : list Day) (budget : nat)
    : list Day :=
  take budget
    (filter (λ d, is_Some (plan !! d)) (days_until_empty plan days)).

(** The placements of one employee on a list of days, each on the first
    choice of the plan. *)
Definition place_days (e : string) (plan : Plan) (st : State)
    (days : list Day) : State :=
  foldl (λ st d,
    match first_choice plan d with
    | Some s => place e d s st
    | None => st
    end) st days.

(** Pass 1 grants employee [e] the shift [s] of day [d]. *)
Definition pass1_grants (st : State) (e : string) (d : Day) (s : Shift)
    : Prop :=
  match preferences st !! e with
  | Some plan =>
      d ∈ pass1_days_served plan DAYS MAX_DAYS_PER_WEEK ∧
      first_choice plan d = Some s
  | None => False
  end.

#[global] Instance pass1_grants_dec st e d s : Decision (pass1_grants st e d s).
Proof. unfold pass1_grants. destruct (preferences st !! e); apply _. Defined.

(** ** The dialogue of [main]

    [main] reads the employees from standard input, line by line. The lines
    still to be read are a list; [input()] on the empty list raises EOFError,
    which nothing catches: the readers return [None]. What is printed plays
    no part in what is read and is left out. Three built-in functions of
    Python are parameters: [int] (with [None] for ValueError), [str.strip]
    and [str.capitalize]. *)

Definition day_name (d : Day) : string :=
  match d with
  | Monday => "Monday" | Tuesday => "Tuesday" | Wednesday => "Wednesday"
  | Thursday => "Thursday" | Friday => "Friday" | Saturday => "Saturday"
  | Sunday => "Sunday"
  end.

Definition shift_name (s : Shift) : string :=
  match s with
  | Morning => "Morning" | Afternoon => "Afternoon" | Evening => "Evening"
  end.

(** [day in scheduler.DAYS], with the day found. *)
Definition day_of_string (s : string) : option Day :=
  head (filter (λ d, day_name d = s) DAYS).

(** [shift in scheduler.SHIFTS], with the shift found. *)
Definition shift_of_string (s : string) : option Shift :=
  head (filter (λ x, shift_name x = s) SHIFTS).

(** [available_shifts.remove(shift)]: the first occurrence goes. *)
Fixpoint remove_first (shift : Shift) (l : list Shift) : list Shift :=
  match l with
  | [] => []
  | x :: rest => if decide (x = shift) then rest else x :: remove_first shift rest
  end.

Section Dialogue.

Variable int_of : string → option Z.
Variable strip : string → string.
Variable capitalize : string → string.

(** The loop that asks for the number of employees: the first line that is
    an integer of at least 1. *)
Fixpoint read_num_employees (inputs : list string) : option (Z * list string) :=
  match inputs with
  | [] => None
  | line :: rest =>
      match int_of line with
      | Some num_employees =>
          if bool_decide (num_employees < 1)%Z then read_num_employees rest
          else Some (num_employees, rest)
      | None => read_num_employees rest
      end
  end.

(** [name = input(...).strip()], asked again while the name is empty. *)
Fixpoint read_name (inputs : list string) : option (string * list string) :=
  match inputs with
  | [] => None
  | line :: rest =>
      if bool_decide (strip line = "") then read_name rest
      else Some (strip line, rest)
  end.

(** The loop that asks how many days the employee wants to work: the first
    line that, stripped, is an integer between 1 and 5. *)
Fixpoint read_num_prefs (inputs : list string) : option (Z * list string) :=
  match inputs with
  | [] => None
  | line :: rest =>
      match int_of (strip line) with
      | Some num_prefs =>
          if bool_decide (1 ≤ num_prefs ≤ 5)%Z then Some (num_prefs, rest)
          else read_num_prefs rest
      | None => read_num_prefs rest
      end
  end.

(** The loop that asks for a day: the first line that names a day not yet
    in [preferences]. *)
Fixpoint read_day (preferences : Plan) (inputs : list string)
    : option (Day * list string) :=
  match inputs with
  | [] => None
  | line :: rest =>
      match day_of_string (capitalize (strip line)) with
      | Some day =>
          if bool_decide (is_Some (preferences !! day))
          then read_day preferences rest
          else Some (day, rest)
      | None => read_day preferences rest
      end
  end.

(** The loop that asks for one choice: the first line that names a shift
    still in [available_shifts]. *)
Fixpoint read_shift (available_shifts : list Shift) (inputs : list string)
    : option (Shift * list string) :=
  match inputs with
  | [] => None
  | line :: rest =>
      match shift_of_string (capitalize (strip line)) with
      | Some shift =>
          if bool_decide (shift ∈ available_shifts) then Some (shift, rest)
          else read_shift available_shifts rest
      | None => read_shift available_shifts rest
      end
  end.

(** [for priority in ["1st", "2nd", "3rd"]], [rounds] turns of it. *)
Fixpoint read_priorities (rounds : nat)
    (shift_priorities available_shifts : list Shift) (inputs : list string)
    : option (list Shift * list string) :=
  match rounds with
  | 0 => Some (shift_priorities, inputs)
  | S rounds' =>
      match available_shifts with
      | [] => Some (shift_priorities, inputs)
      | _ :: _ =>
          '(shift, rest) ← read_shift available_shifts inputs;
          read_priorities rounds' (shift_priorities ++ [shift])
            (remove_first shift available_shifts) rest
      end
  end.

(** [for j in range(num_prefs)]: a day, its three choices, and
    [preferences[day] = shift_priorities]. *)
Fixpoint read_plan (num_prefs : nat) (preferences : Plan)
    (inputs : list string) : option (Plan * list string) :=
  match num_prefs with
  | 0 => Some (preferences, inputs)
  | S num_prefs' =>
      '(day, rest) ← read_day preferences inputs;
      '(shift_priorities, rest') ← read_priorities 3 [] SHIFTS rest;
      read_plan num_prefs' (<[day := shift_priorities]> preferences) rest'
  end.

(** [for i in range(num_employees)]: name, number of days, plan, and
    [scheduler.add_employee(name, preferences)]. *)
Fixpoint read_employees (num_employees : nat) (scheduler : State)
    (inputs : list string) : option (State * list string) :=
  match num_employees with
  | 0 => Some (scheduler, inputs)
  | S num_employees' =>
      '(name, rest) ← read_name inputs;
      '(num_prefs, rest') ← read_num_prefs rest;
      '(preferences, rest'') ← read_plan (Z.to_nat num_prefs) ∅ rest';
      read_employees num_employees' (add_employee name preferences scheduler)
        rest''
  end.

(** [main] up to the call of [assign_shifts]: the scheduler it has built. *)
Definition main_scheduler (inputs : list string) : option State :=
  '(num_employees, rest) ← read_num_employees inputs;
  '(scheduler, _) ← read_employees (Z.to_nat num_employees) init rest;
  Some scheduler.

End Dialogue.

(** What the input checks of [main] let through: between one and five days,
    each with the three shifts in some order. *)
Definition plan_valid (plan : Plan) : Prop :=
  1 ≤ size plan ≤ MAX_DAYS_PER_WEEK ∧
  map_Forall (λ _ (shifts : list Shift), shifts ≡ₚ SHIFTS) plan.

(** A stand-in for [int] on the two numerals the sample dialogue uses. *)
Definition sample_int_of (s : string) : option Z :=
  if bool_decide (s = "1") then Some 1%Z
  else if bool_decide (s = "2") then Some 2%Z
  else None.

(** A dialogue: one employee, who is asked again after an empty name, a
    number out of range, a day that is none and a shift named twice. *)
Definition sample_dialogue : list string :=
  ["zero"; "1"; ""; "Alice"; "9"; "2";
   "Funday"; "Monday"; "Evening"; "Evening"; "Morning"; "Afternoon";
   "Monday"; "Friday"; "Morning"; "Afternoon"; "Evening"].




(** ** The write [place] *)

Lemma days_worked_place e d s st e' :
  days_worked (place e d s st) e' =
  if decide (e' = e) then S (days_worked st e) else days_worked st e'.
Proof.
  unfold days_worked at 1. simpl. destruct (decide (e' = e)) as [->|Hne].
  - by rewrite lookup_insert_eq.
  - by rewrite lookup_insert_ne.
Qed.

Lemma schedule_place e d s st d' s' :
  schedule (place e d s st) d' s' =
  if decide (d' = d ∧ s' = s) then schedule st d' s' ++ [e]
  else schedule st d' s'.
Proof.
  simpl. unfold append_slot. destruct (decide (d' = d ∧ s' = s)).
  - by rewrite bool_decide_eq_true_2.
  - by rewrite bool_decide_eq_false_2.
Qed.

Lemma elem_of_place e d s st e' d' s' :
  e' ∈ schedule (place e d s st) d' s' ↔
  e' ∈ schedule st d' s' ∨ (e' = e ∧ d' = d ∧ s' = s).
Proof.
  rewrite schedule_place. destruct (decide (d' = d ∧ s' = s)) as [[-> ->]|Hne].
  - rewrite elem_of_app, list_elem_of_singleton. tauto.
  - tauto.
Qed.

Lemma already_scheduled_spec st e d :
  already_scheduled st e d = true ↔ ∃ s, e ∈ schedule st d s.
Proof.
  unfold already_scheduled, SHIFTS. simpl.
  rewrite !orb_true_iff, !bool_decide_eq_true. split.
  - intros [?|[?|[?|?]]]; eauto; discriminate.
  - intros [[] ?]; auto.
Qed.

Lemma already_scheduled_false st e d :
  already_scheduled st e d = false ↔ ∀ s, e ∉ schedule st d s.
Proof.
  rewrite <- not_true_iff_false, already_scheduled_spec. split.
  - intros H s Hs. apply H. eauto.
  - intros H [s Hs]. by apply (H s).
Qed.

Lemma already_scheduled_place e d s st e' d' :
  already_scheduled (place e d s st) e' d' = true ↔
  already_scheduled st e' d' = true ∨ (e' = e ∧ d' = d).
Proof.
  rewrite !already_scheduled_spec. split.
  - intros [s' H]. apply elem_of_place in H as [H|(-> & -> & _)]; eauto.
  - intros [[s' H]|[-> ->]].
    + exists s'. apply elem_of_place. auto.
    + exists s. apply elem_of_place. auto.
Qed.

Lemma already_scheduled_place_other e d s st e' d' :
  e' ≠ e ∨ d' ≠ d →
  already_scheduled (place e d s st) e' d' = already_scheduled st e' d'.
Proof.
  intros Hne. apply eq_true_iff_eq. rewrite already_scheduled_place.
  split; [intros [?|[-> ->]]; [done|destruct Hne; done] | auto].
Qed.

Lemma already_scheduled_place_same e d s st :
  already_scheduled (place e d s st) e d = true.
Proof. apply already_scheduled_place. auto. Qed.

(** ** Runs of assignments *)

Lemma placements_trans st1 st2 st3 :
  placements st1 st2 → placements st2 st3 → placements st1 st3.
Proof.
  intros H12 H23. induction H23 as [|st2 st3 e d s _ IH Hcap Hfree]; [done|].
  apply placements_step; auto.
Qed.

Lemma placements_one st e d s :
  days_worked st e < MAX_DAYS_PER_WEEK →
  already_scheduled st e d = false →
  placements st (place e d s st).
Proof. intros. apply placements_step; [constructor|done..]. Qed.

Lemma placements_employees st st' :
  placements st st' → employees st' = employees st.
Proof. induction 1; [done|]. simpl. done. Qed.

Lemma placements_preferences st st' :
  placements st st' → preferences st' = preferences st.
Proof. induction 1; [done|]. simpl. done. Qed.

Lemma placements_registered st st' :
  placements st st' → registered st → registered st'.
Proof.
  intros H. unfold registered.
  by rewrite (placements_employees _ _ H), (placements_preferences _ _ H).
Qed.

Lemma placements_extends st st' : placements st st' → extends st st'.
Proof.
  induction 1 as [st|st st' e d s _ [IHs IHc] Hcap Hfree].
  - split; [intros; reflexivity | intros; lia].
  - split.
    + intros d' s'. etrans; [apply IHs|]. rewrite schedule_place.
      case_decide; [by apply prefix_app_r | done].
    + intros e'. rewrite days_worked_place. specialize (IHc e').
      case_decide; subst; lia.
Qed.

Lemma placements_no_double_booking st st' :
  placements st st' → no_double_booking st → no_double_booking st'.
Proof.
  induction 1 as [st|st st' e d s _ IH Hcap Hfree]; [done|].
  intros Hst e' d' s1 s2 H1 H2. specialize (IH Hst).
  rewrite already_scheduled_false in Hfree.
  apply elem_of_place in H1, H2.
  destruct H1 as [H1|(? & ? & ?)], H2 as [H2|(? & ? & ?)]; subst.
  - by apply (IH e' d').
  - by destruct (Hfree s1).
  - by destruct (Hfree s2).
  - done.
Qed.

Lemma placements_cap_respected st st' :
  placements st st' → cap_respected st → cap_respected st'.
Proof.
  induction 1 as [st|st st' e d s _ IH Hcap Hfree]; [done|].
  intros Hst e'. specialize (IH Hst e'). rewrite days_worked_place.
  case_decide; subst; lia.
Qed.

Lemma NoDup_DAYS : NoDup DAYS.
Proof. by apply (bool_decide_unpack _). Qed.

Lemma elem_of_DAYS d : d ∈ DAYS.
Proof. unfold DAYS. destruct d; set_solver. Qed.

Lemma length_filter_agree {A} (P Q : A → Prop)
    `{!∀ x, Decision (P x), !∀ x, Decision (Q x)} (l : list A) :
  (∀ x, x ∈ l → (Q x ↔ P x)) → length (filter Q l) = length (filter P l).
Proof.
  induction l as [|x l IH]; intros HQ; [done|]. rewrite !filter_cons.
  assert (Q x ↔ P x) as Hx by (apply HQ; left).
  assert (length (filter Q l) = length (filter P l)) as Hl
    by (apply IH; intros y Hy; apply HQ; by right).
  destruct (decide (P x)) as [HPx|HPx].
  - rewrite (decide_True (P:=Q x)) by tauto. simpl. by rewrite Hl.
  - rewrite (decide_False (P:=Q x)) by tauto. done.
Qed.

Lemma length_filter_one_more {A} (P Q : A → Prop)
    `{!∀ x, Decision (P x), !∀ x, Decision (Q x)} (l : list A) (a : A) :
  NoDup l → a ∈ l → ¬ P a → (∀ x, Q x ↔ P x ∨ x = a) →
  length (filter Q l) = S (length (filter P l)).
Proof.
  intros Hnd Ha HPa HQ. induction Hnd as [|x l Hx Hnd IH]; [by inversion Ha|].
  rewrite !filter_cons. apply elem_of_cons in Ha as [<- | Ha].
  - rewrite (decide_True (P:=Q a)) by (apply HQ; auto).
    rewrite (decide_False (P:=P a)) by done. simpl. f_equal.
    apply length_filter_agree. intros y Hy. rewrite HQ.
    split; [intros [? | ->]; [done|by destruct Hx] | auto].
  - assert (x ≠ a) by (intros ->; done).
    destruct (decide (P x)) as [HPx|HPx].
    + rewrite (decide_True (P:=Q x)) by (apply HQ; auto). simpl. auto.
    + rewrite (decide_False (P:=Q x)) by (rewrite HQ; tauto). auto.
Qed.

Lemma days_assigned_place_same e d s st :
  already_scheduled st e d = false →
  days_assigned (place e d s st) e = S (days_assigned st e).
Proof.
  intros Hfree. unfold days_assigned.
  apply (length_filter_one_more _ _ DAYS d).
  - apply NoDup_DAYS.
  - apply elem_of_DAYS.
  - simpl. rewrite Hfree. simpl. tauto.
  - intros x. simpl. rewrite !Is_true_true, already_scheduled_place. tauto.
Qed.

Lemma days_assigned_place_other e d s st e' :
  e' ≠ e → days_assigned (place e d s st) e' = days_assigned st e'.
Proof.
  intros Hne. unfold days_assigned. f_equal. apply list_filter_iff. intros x.
  rewrite already_scheduled_place_other; auto.
Qed.

Lemma placements_counters_consistent st st' :
  placements st st' → counters_consistent st → counters_consistent st'.
Proof.
  induction 1 as [st|st st' e d s _ IH Hcap Hfree]; [done|].
  intros Hst e'. specialize (IH Hst). rewrite days_worked_place.
  case_decide as He; subst.
  - rewrite days_assigned_place_same by done. by rewrite IH.
  - rewrite days_assigned_place_other by done. apply IH.
Qed.

Lemma placements_already_scheduled st st' e d :
  placements st st' →
  already_scheduled st e d = true → already_scheduled st' e d = true.
Proof.
  induction 1; [done|]. intros. apply already_scheduled_place. auto.
Qed.

Lemma placements_days_worked st st' e :
  placements st st' → days_worked st e ≤ days_worked st' e.
Proof. intros H. apply (placements_extends _ _ H). Qed.

(** ** The result monad *)

Lemma bind_Ok {A B} (r : result A) (f : A → result B) b :
  r ≫= f = Ok b ↔ ∃ a, r = Ok a ∧ f a = Ok b.
Proof.
  destruct r as [a|n]; simpl; split.
  - eauto.
  - by intros (? & [= ->] & ?).
  - done.
  - by intros (? & ? & ?).
Qed.

Lemma get_plan_Ok st e plan :
  get_plan st e = Ok plan ↔ preferences st !! e = Some plan.
Proof.
  unfold get_plan. destruct (preferences st !! e); split; congruence.
Qed.

(** ** First pass *)

Lemma pass1_days_placements e days st st' :
  pass1_days e days st = Ok st' → placements st st'.
Proof.
  revert st. induction days as [|day rest IH]; intros st; simpl.
  - intros [= <-]. constructor.
  - case_bool_decide as Hcap; [intros [= <-]; constructor|].
    intros (plan & Hplan & H)%bind_Ok.
    destruct (plan !! day) as [[|shift others]|]; auto.
    + destruct (already_scheduled st e day) eqn:Hfree; auto.
      injection H as <-. constructor.
    + destruct (already_scheduled st e day) eqn:Hfree; auto.
      apply IH in H. eapply placements_trans; [|done].
      apply placements_one; [unfold MAX_DAYS_PER_WEEK in *; lia | done].
Qed.

Lemma pass1_days_total e days st :
  is_Some (preferences st !! e) → ∃ st', pass1_days e days st = Ok st'.
Proof.
  revert st. induction days as [|day rest IH]; intros st Hsome; simpl; eauto.
  case_bool_decide; eauto.
  destruct Hsome as [plan Hplan]. unfold get_plan. rewrite Hplan. simpl.
  assert (is_Some (preferences st !! e)) as Hsome by eauto.
  destruct (plan !! day) as [[|shift others]|]; [| |by apply IH].
  - destruct (already_scheduled st e day); [by apply IH | eauto].
  - destruct (already_scheduled st e day); by apply IH.
Qed.

Lemma pass1_employees_placements emps st st' :
  pass1_employees emps st = Ok st' → placements st st'.
Proof.
  revert st. induction emps as [|e rest IH]; intros st; cbn [pass1_employees].
  - intros [= <-]. constructor.
  - intros (st1 & H1 & H2)%bind_Ok.
    apply pass1_days_placements in H1. apply IH in H2.
    by eapply placements_trans.
Qed.

Lemma pass1_employees_total emps st :
  Forall (λ e, is_Some (preferences st !! e)) emps →
  ∃ st', pass1_employees emps st = Ok st'.
Proof.
  revert st. induction emps as [|e rest IH]; intros st Hall;
    cbn [pass1_employees]; eauto.
  apply Forall_cons in Hall as [He Hrest].
  destruct (pass1_days_total e DAYS st He) as [st1 H1]. rewrite H1.
  cbn [mbind result_bind].
  apply IH. by rewrite (placements_preferences _ _ (pass1_days_placements _ _ _ _ H1)).
Qed.

(** ** Second pass *)

Lemma scan_employees_first d s emps st :
  scan_employees d s emps st =
  match head (filter (available st d s) emps) with
  | Some e => (place e d s st, true)
  | None => (st, false)
  end.
Proof.
  induction emps as [|e rest IH]; [done|].
  cbn [scan_employees]. rewrite filter_cons.
  destruct (decide (available st d s e)) as [(Hcap & Hfree & Hin)|Hno].
  - rewrite bool_decide_eq_false_2 by lia. rewrite Hfree.
    by rewrite bool_decide_eq_true_2.
  - rewrite <- IH. case_bool_decide as Hcap; [done|].
    destruct (already_scheduled st e d) eqn:Hfree; [done|].
    case_bool_decide as Hin; [|done].
    destruct Hno. repeat split; [lia|done..].
Qed.

Lemma first_available_Some st d s e :
  first_available st d s = Some e → e ∈ employees st ∧ available st d s e.
Proof.
  unfold first_available. intros H. apply head_Some_elem_of in H.
  by apply list_elem_of_filter in H as [? ?].
Qed.

Lemma scan_employees_placements d s emps st :
  placements st (scan_employees d s emps st).1.
Proof.
  rewrite scan_employees_first.
  destruct (head (filter (available st d s) emps)) as [e|] eqn:H;
    [|constructor].
  apply head_Some_elem_of, list_elem_of_filter in H as [(? & ? & ?) _].
  by apply placements_one.
Qed.

Lemma fill_slot_placements fuel d s c st :
  placements st (fill_slot fuel d s c st).
Proof.
  revert c st. induction fuel as [|fuel IH]; intros c st; cbn [fill_slot];
    [constructor|].
  case_bool_decide; [|constructor].
  pose proof (scan_employees_placements d s (employees st) st) as Hscan.
  destruct (scan_employees d s (employees st) st) as [st' [|]]; [|done].
  eapply placements_trans; [exact Hscan | apply IH].
Qed.

Lemma fill_slot_fuel fuel d s c st :
  MIN_EMPLOYEES_PER_SHIFT - c ≤ fuel →
  fill_slot fuel d s c st = fill_slot (MIN_EMPLOYEES_PER_SHIFT - c) d s c st.
Proof.
  revert c st. induction fuel as [|fuel IH]; intros c st Hfuel.
  - by replace (MIN_EMPLOYEES_PER_SHIFT - c) with 0 by lia.
  - cbn [fill_slot]. case_bool_decide as Hc.
    + replace (MIN_EMPLOYEES_PER_SHIFT - c)
        with (S (MIN_EMPLOYEES_PER_SHIFT - S c)) by lia.
      cbn [fill_slot]. rewrite bool_decide_eq_true_2 by done.
      destruct (scan_employees d s (employees st) st) as [st' [|]]; [|done].
      apply IH. lia.
    + replace (MIN_EMPLOYEES_PER_SHIFT - c) with 0 by lia. done.
Qed.

Lemma ensure_slot_placements d s st : placements st (ensure_slot d s st).
Proof. apply fill_slot_placements. Qed.

Lemma ensure_minimum_coverage_slots st :
  _ensure_minimum_coverage st =
  foldl (λ st ds, ensure_slot ds.1 ds.2 st) st slots.
Proof.
  unfold _ensure_minimum_coverage. generalize ensure_slot. intros f.
  vm_compute. reflexivity.
Qed.

Lemma foldl_ensure_slot_placements l st :
  placements st (foldl (λ st ds, ensure_slot ds.1 ds.2 st) st l).
Proof.
  revert st. induction l as [|[d s] l IH]; intros st; [constructor|].
  cbn [foldl]. eapply placements_trans; [apply ensure_slot_placements|apply IH].
Qed.

Lemma ensure_minimum_coverage_placements st :
  placements st (_ensure_minimum_coverage st).
Proof.
  rewrite ensure_minimum_coverage_slots. apply foldl_ensure_slot_placements.
Qed.

(** ** Third pass *)

Lemma scheduled_days_inner st e d day shifts (acc : gset Day) :
  d ∈ foldl (λ acc shift,
         if bool_decide (e ∈ schedule st day shift)
         then {[day]} ∪ acc else acc) acc shifts ↔
  d ∈ acc ∨ (d = day ∧ ∃ s, s ∈ shifts ∧ e ∈ schedule st day s).
Proof.
  revert acc. induction shifts as [|s shifts IH]; intros acc; cbn [foldl].
  - split; [auto|]. intros [?|(_ & s & Hs & _)]; [done|]. by apply elem_of_nil in Hs.
  - rewrite IH. case_bool_decide as Hin.
    + rewrite elem_of_union, elem_of_singleton. split.
      * intros [[->|?]|(-> & s' & Hs' & ?)]; [right|by left|right].
        -- split; [done|]. exists s. split; [left|done].
        -- split; [done|]. exists s'. split; [by right|done].
      * intros [?|(-> & _)]; left; auto.
    + split.
      * intros [?|(-> & s' & Hs' & ?)]; [by left|right].
        split; [done|]. exists s'. split; [by right|done].
      * intros [?|(-> & s' & Hs' & ?)]; [by left|].
        apply elem_of_cons in Hs' as [->|Hs']; [done|].
        right. split; [done|]. by exists s'.
Qed.

Lemma scheduled_days_outer st e d days (acc : gset Day) :
  d ∈ foldl (λ acc day,
         foldl (λ acc shift,
           if bool_decide (e ∈ schedule st day shift)
           then {[day]} ∪ acc else acc) acc SHIFTS) acc days ↔
  d ∈ acc ∨ (d ∈ days ∧ already_scheduled st e d = true).
Proof.
  revert acc. induction days as [|day days IH]; intros acc; cbn [foldl].
  - split; [auto|]. intros [?|[Hd _]]; [done|]. by apply elem_of_nil in Hd.
  - rewrite IH, scheduled_days_inner, elem_of_cons, already_scheduled_spec.
    split.
    + intros [[?|(-> & s & _ & Hs)]|[? ?]]; [by left|right|right].
      * split; [by left|by exists s].
      * split; [by right|done].
    + intros [?|[[->|?] [s Hs]]]; [left; by left|left; right|right].
      * split; [done|]. exists s. split; [|done]. unfold SHIFTS.
        destruct s; [left|right; left|right; right; left].
      * split; [done|by exists s].
Qed.

Lemma scheduled_days_of_spec st e d :
  d ∈ scheduled_days_of st e ↔ already_scheduled st e d = true.
Proof.
  unfold scheduled_days_of. rewrite scheduled_days_outer. split.
  - intros [H|[_ ?]]; [by apply not_elem_of_empty in H|done].
  - intros H. right. split; [apply elem_of_DAYS|done].
Qed.

Lemma try_shifts_Some e d shifts st st' :
  try_shifts e d shifts st = Some st' →
  ∃ s, s ∈ shifts ∧ st' = place e d s st.
Proof.
  induction shifts as [|s rest IH]; [done|]. cbn [try_shifts].
  case_bool_decide.
  - intros [= <-]. exists s. split; [left|done].
  - intros (s' & ? & ?)%IH. exists s'. split; [by right|done].
Qed.

Lemma resolve_days_placements fb e plan days sd st :
  (∀ d, already_scheduled st e d = true → d ∈ sd) →
  placements st (resolve_days fb e plan days sd st).
Proof.
  revert sd st. induction days as [|day rest IH]; intros sd st Hsd;
    cbn [resolve_days]; [constructor|].
  case_bool_decide as Hcap; [constructor|].
  case_bool_decide as Hday; [by apply IH|].
  destruct (try_shifts e day (default fb (plan !! day)) st) as [st'|] eqn:Htry;
    [|by apply IH].
  apply try_shifts_Some in Htry as (s & _ & ->).
  assert (already_scheduled st e day = false) as Hfree.
  { apply not_true_iff_false. intros H. by apply Hday, Hsd. }
  apply (placements_trans _ (place e day s st)).
  - apply placements_one; [lia | done].
  - apply IH. intros d [H|[_ ->]]%already_scheduled_place; set_solver.
Qed.

Lemma resolve_employee_placements fb iter e st st' :
  resolve_employee fb iter e st = Ok st' → placements st st'.
Proof.
  unfold resolve_employee. intros (plan & _ & [= <-])%bind_Ok.
  apply resolve_days_placements. intros d. by rewrite scheduled_days_of_spec.
Qed.

Lemma resolve_employees_placements fb iter emps st st' :
  resolve_employees fb iter emps st = Ok st' → placements st st'.
Proof.
  revert st. induction emps as [|e rest IH]; intros st;
    cbn [resolve_employees].
  - intros [= <-]. constructor.
  - intros (st1 & H1 & H2)%bind_Ok.
    apply resolve_employee_placements in H1. apply IH in H2.
    by eapply placements_trans.
Qed.

Lemma resolve_employees_total fb iter emps st :
  Forall (λ e, is_Some (preferences st !! e)) emps →
  ∃ st', resolve_employees fb iter emps st = Ok st'.
Proof.
  revert st. induction emps as [|e rest IH]; intros st Hall;
    cbn [resolve_employees]; eauto.
  apply Forall_cons in Hall as [[plan He] Hrest].
  unfold resolve_employee, get_plan. rewrite He. cbn [mbind result_bind].
  apply IH. erewrite placements_preferences; [done|].
  apply resolve_days_placements. intros d. by rewrite scheduled_days_of_spec.
Qed.

(** ** The three passes together *)

Lemma passes_run iter st :
  registered st →
  ∃ s1 s3,
    first_pass st = Ok s1 ∧
    _resolve_conflicts iter (_ensure_minimum_coverage s1) = Ok s3 ∧
    assign_shifts iter st = Ok s3 ∧
    placements st s1 ∧
    placements s1 (_ensure_minimum_coverage s1) ∧
    placements (_ensure_minimum_coverage s1) s3.
Proof.
  intros Hreg.
  destruct (pass1_employees_total (employees st) st Hreg) as [s1 H1].
  pose proof (pass1_employees_placements _ _ _ H1) as P1.
  pose proof (ensure_minimum_coverage_placements s1) as P2.
  assert (registered (_ensure_minimum_coverage s1)) as Hreg2.
  { eapply placements_registered; [exact P2|].
    eapply placements_registered; [exact P1|done]. }
  destruct (resolve_employees_total SHIFTS iter _ _ Hreg2) as [s3 H3].
  exists s1, s3. unfold assign_shifts, first_pass, _resolve_conflicts in *.
  rewrite H1. cbn [mbind result_bind]. repeat split; try done.
  by eapply resolve_employees_placements.
Qed.

(** ** Schedulers built by [add_employee] *)

Lemma add_employee_registered name plan st :
  registered st → registered (add_employee name plan st).
Proof.
  unfold registered, add_employee. intros Hreg. case_bool_decide as Hin; [done|].
  simpl. apply Forall_app. split.
  - eapply Forall_impl; [exact Hreg|]. intros e [p Hp]. simpl.
    destruct (decide (e = name)) as [->|Hne].
    + rewrite lookup_insert_eq. eauto.
    + rewrite lookup_insert_ne by done. eauto.
  - apply Forall_singleton. rewrite lookup_insert_eq. eauto.
Qed.

Lemma add_employee_schedule name plan st :
  schedule (add_employee name plan st) = schedule st ∧
  employee_days_worked (add_employee name plan st) = employee_days_worked st.
Proof. unfold add_employee. by case_bool_decide. Qed.

Lemma build_snoc regs r :
  build (regs ++ [r]) = add_employee r.1 r.2 (build regs).
Proof. unfold build. by rewrite foldl_app. Qed.

Lemma build_registered regs : registered (build regs).
Proof.
  induction regs as [|r regs IH] using rev_ind; [by apply Forall_nil|].
  rewrite build_snoc. by apply add_employee_registered.
Qed.

Lemma build_fresh regs :
  schedule (build regs) = schedule init ∧
  employee_days_worked (build regs) = employee_days_worked init.
Proof.
  induction regs as [|r regs [IHs IHc]] using rev_ind; [done|].
  rewrite build_snoc.
  destruct (add_employee_schedule r.1 r.2 (build regs)) as [-> ->]. done.
Qed.

Lemma build_slot_empty regs d s : schedule (build regs) d s = [].
Proof. by destruct (build_fresh regs) as [-> _]. Qed.

Lemma build_days_worked regs e : days_worked (build regs) e = 0.
Proof.
  unfold days_worked. by destruct (build_fresh regs) as [_ ->].
Qed.

Lemma build_no_double_booking regs : no_double_booking (build regs).
Proof.
  intros e d s1 s2 H. rewrite build_slot_empty in H. by apply elem_of_nil in H.
Qed.

Lemma build_cap_respected regs : cap_respected (build regs).
Proof. intros e. rewrite build_days_worked. unfold MAX_DAYS_PER_WEEK. lia. Qed.

Lemma days_assigned_zero st e :
  (∀ d, already_scheduled st e d = false) → days_assigned st e = 0.
Proof.
  intros H. unfold days_assigned. induction DAYS as [|d l IH]; [done|].
  rewrite filter_cons, decide_False; [done|]. rewrite H. simpl. tauto.
Qed.

Lemma build_counters_consistent regs : counters_consistent (build regs).
Proof.
  intros e. rewrite build_days_worked. symmetry. apply days_assigned_zero.
  intros d. apply already_scheduled_false. intros s.
  rewrite build_slot_empty. apply not_elem_of_nil.
Qed.

(** ** The invariants of the grid *)

(** C1. No double-booking: started on a scheduler in which every employee
    has a plan and nobody stands in two shifts of one day, the three passes
    of [assign_shifts] run to their end, and after Pass 1, after Pass 2 and
    after Pass 3 every employee stands in at most one shift of every day. *)
Theorem no_double_booking_after_each_pass iter st :
  registered st →
  no_double_booking st →
  ∃ s1 s3,
    first_pass st = Ok s1 ∧
    _resolve_conflicts iter (_ensure_minimum_coverage s1) = Ok s3 ∧
    assign_shifts iter st = Ok s3 ∧
    no_double_booking s1 ∧
    no_double_booking (_ensure_minimum_coverage s1) ∧
    no_double_booking s3.
Proof.
  intros Hreg Hinv.
  destruct (passes_run iter st Hreg) as (s1 & s3 & H1 & H3 & H & P1 & P2 & P3).
  exists s1, s3. repeat split; try done.
  - by eapply placements_no_double_booking.
  - by eapply placements_no_double_booking, placements_no_double_booking.
  - eapply placements_no_double_booking; [exact P3|].
    by eapply placements_no_double_booking, placements_no_double_booking.
Qed.

Lemma no_double_booking_after_each_pass_witness :
  registered two_mornings ∧ no_double_booking two_mornings ∧
  ∃ s1 s3,
    first_pass two_mornings = Ok s1 ∧
    _resolve_conflicts elements (_ensure_minimum_coverage s1) = Ok s3 ∧
    assign_shifts elements two_mornings = Ok s3 ∧
    no_double_booking s1 ∧
    no_double_booking (_ensure_minimum_coverage s1) ∧
    no_double_booking s3.
Proof.
  split; [apply build_registered|]. split; [apply build_no_double_booking|].
  apply (no_double_booking_after_each_pass elements two_mornings).
  - apply build_registered.
  - apply build_no_double_booking.
Defined.

(** C2. Work-day cap: started on a scheduler in which every employee has a
    plan and no counter exceeds [MAX_DAYS_PER_WEEK], each pass is a run of
    single assignments, every one made to an employee whose counter is below
    the cap at that moment; and in every state such a run goes through, the
    ones between two assignments of a pass included, no counter exceeds 5. *)
Theorem cap_respected_at_every_point iter st :
  registered st →
  cap_respected st →
  ∃ s1 s3,
    first_pass st = Ok s1 ∧
    _resolve_conflicts iter (_ensure_minimum_coverage s1) = Ok s3 ∧
    assign_shifts iter st = Ok s3 ∧
    placements st s1 ∧
    placements s1 (_ensure_minimum_coverage s1) ∧
    placements (_ensure_minimum_coverage s1) s3 ∧
    ∀ mid e, placements st mid → days_worked mid e ≤ 5.
Proof.
  intros Hreg Hinv.
  destruct (passes_run iter st Hreg) as (s1 & s3 & H1 & H3 & H & P1 & P2 & P3).
  exists s1, s3. repeat split; try done.
  intros mid e Hmid. by apply (placements_cap_respected st mid).
Qed.

Lemma cap_respected_at_every_point_witness :
  registered two_mornings ∧ cap_respected two_mornings ∧
  ∃ s1 s3,
    first_pass two_mornings = Ok s1 ∧
    _resolve_conflicts elements (_ensure_minimum_coverage s1) = Ok s3 ∧
    assign_shifts elements two_mornings = Ok s3 ∧
    placements two_mornings s1 ∧
    placements s1 (_ensure_minimum_coverage s1) ∧
    placements (_ensure_minimum_coverage s1) s3 ∧
    ∀ mid e, placements two_mornings mid → days_worked mid e ≤ 5.
Proof.
  split; [apply build_registered|]. split; [apply build_cap_respected|].
  apply (cap_respected_at_every_point elements two_mornings).
  - apply build_registered.
  - apply build_cap_respected.
Defined.

(** C5. Counter consistency: started on a scheduler in which every employee
    has a plan and every counter is the number of days its employee is
    scheduled on, the passes run to their end and after each of them every
    counter is again the number of days on which its employee stands in some
    shift. *)
Theorem counters_consistent_after_each_pass iter st :
  registered st →
  counters_consistent st →
  ∃ s1 s3,
    first_pass st = Ok s1 ∧
    _resolve_conflicts iter (_ensure_minimum_coverage s1) = Ok s3 ∧
    assign_shifts iter st = Ok s3 ∧
    (∀ e, days_worked s1 e = days_assigned s1 e) ∧
    (∀ e, days_worked (_ensure_minimum_coverage s1) e =
          days_assigned (_ensure_minimum_coverage s1) e) ∧
    (∀ e, days_worked s3 e = days_assigned s3 e).
Proof.
  intros Hreg Hinv.
  destruct (passes_run iter st Hreg) as (s1 & s3 & H1 & H3 & H & P1 & P2 & P3).
  pose proof (placements_counters_consistent _ _ P1 Hinv) as I1.
  pose proof (placements_counters_consistent _ _ P2 I1) as I2.
  pose proof (placements_counters_consistent _ _ P3 I2) as I3.
  by exists s1, s3.
Qed.

Lemma counters_consistent_after_each_pass_witness :
  registered two_mornings ∧ counters_consistent two_mornings ∧
  ∃ s1 s3,
    first_pass two_mornings = Ok s1 ∧
    _resolve_conflicts elements (_ensure_minimum_coverage s1) = Ok s3 ∧
    assign_shifts elements two_mornings = Ok s3 ∧
    (∀ e, days_worked s1 e = days_assigned s1 e) ∧
    (∀ e, days_worked (_ensure_minimum_coverage s1) e =
          days_assigned (_ensure_minimum_coverage s1) e) ∧
    (∀ e, days_worked s3 e = days_assigned s3 e).
Proof.
  split; [apply build_registered|]. split; [apply build_counters_consistent|].
  apply (counters_consistent_after_each_pass elements two_mornings).
  - apply build_registered.
  - apply build_counters_consistent.
Defined.

(** C7. Append-only: a scheduler starts with every slot empty and every
    counter 0, also after any number of [add_employee] calls; and in a
    scheduler in which every employee has a plan each pass only appends:
    every slot before the pass is a prefix of the same slot after it, and no
    counter is smaller after the pass than before. *)
Theorem passes_only_append iter st :
  registered st →
  (∀ regs d s e,
     schedule (build regs) d s = [] ∧ days_worked (build regs) e = 0) ∧
  ∃ s1 s3,
    first_pass st = Ok s1 ∧
    _resolve_conflicts iter (_ensure_minimum_coverage s1) = Ok s3 ∧
    assign_shifts iter st = Ok s3 ∧
    extends st s1 ∧
    extends s1 (_ensure_minimum_coverage s1) ∧
    extends (_ensure_minimum_coverage s1) s3.
Proof.
  intros Hreg. split.
  { intros regs d s e. split; [apply build_slot_empty|apply build_days_worked]. }
  destruct (passes_run iter st Hreg) as (s1 & s3 & H1 & H3 & H & P1 & P2 & P3).
  exists s1, s3. repeat split; try done; by apply placements_extends.
Qed.

Lemma passes_only_append_witness :
  registered two_mornings ∧
  (∀ regs d s e,
     schedule (build regs) d s = [] ∧ days_worked (build regs) e = 0) ∧
  ∃ s1 s3,
    first_pass two_mornings = Ok s1 ∧
    _resolve_conflicts elements (_ensure_minimum_coverage s1) = Ok s3 ∧
    assign_shifts elements two_mornings = Ok s3 ∧
    extends two_mornings s1 ∧
    extends s1 (_ensure_minimum_coverage s1) ∧
    extends (_ensure_minimum_coverage s1) s3.
Proof.
  split; [apply build_registered|].
  apply (passes_only_append elements two_mornings). apply build_registered.
Defined.

(** C9. A scheduler built by [add_employee] calls alone has a preference
    entry for every name of its employee list, so [self.preferences[employee]]
    succeeds for each of them and the first pass, the third pass and
    [assign_shifts] as a whole end without the KeyError of an unknown
    employee (the second pass performs no such lookup). *)
Theorem unknown_employee_unreachable regs iter :
  (∀ name, name ∈ employees (build regs) →
     ∃ plan, get_plan (build regs) name = Ok plan) ∧
  ∃ s1 s3,
    first_pass (build regs) = Ok s1 ∧
    _resolve_conflicts iter (_ensure_minimum_coverage s1) = Ok s3 ∧
    assign_shifts iter (build regs) = Ok s3.
Proof.
  pose proof (build_registered regs) as Hreg. split.
  - intros name Hin. unfold registered in Hreg.
    rewrite Forall_forall in Hreg. destruct (Hreg name Hin) as [plan Hplan].
    exists plan. by apply get_plan_Ok.
  - destruct (passes_run iter _ Hreg) as (s1 & s3 & H1 & H3 & H & _).
    by exists s1, s3.
Qed.

(** ** First pass: first choices and the empty sequence *)








Lemma DAYS_split day :
  DAYS = days_before day ++ day :: drop (S (day_index day)) DAYS.
Proof. by destruct day. Qed.

Lemma elem_of_days_before d day :
  d ∈ days_before day ↔ day_index d < day_index day.
Proof.
  unfold days_before. split.
  - intros (i & Hi & Hlt)%elem_of_take.
    assert (i = day_index d) as ->; [|done].
    destruct day; simpl in Hlt;
      repeat (destruct i as [|i]; [by injection Hi as <-|]); lia.
  - intros Hlt. apply elem_of_take. exists (day_index d).
    split; [by destruct d | done].
Qed.

Lemma pass1_days_untouched e days st st' d s :
  pass1_days e days st = Ok st' → d ∉ days →
  schedule st' d s = schedule st d s.
Proof.
  revert st. induction days as [|day rest IH]; intros st; cbn [pass1_days].
  - by intros [= <-].
  - intros Hrun [Hne Hd]%not_elem_of_cons. revert Hrun.
    case_bool_decide as Hcap; [by intros [= <-]|].
    intros (plan & _ & H)%bind_Ok.
    destruct (plan !! day) as [[|shift others]|]; [| |by apply IH].
    + destruct (already_scheduled st e day); [by apply IH|by injection H as <-].
    + destruct (already_scheduled st e day); [by apply IH|].
      rewrite (IH _ H Hd), schedule_place. apply decide_False. by intros [-> _].
Qed.

Lemma pass1_days_stops e plan day pre post st :
  preferences st !! e = Some plan →
  plan !! day = Some [] →
  already_scheduled st e day = false →
  day ∉ pre →
  pass1_days e (pre ++ day :: post) st = pass1_days e pre st.
Proof.
  intros Hplan Hday. revert st Hplan.
  induction pre as [|d pre IH]; intros st Hplan Hfree Hpre.
  - cbn [app pass1_days]. case_bool_decide; [done|].
    unfold get_plan. rewrite Hplan. cbn [mbind result_bind].
    by rewrite Hday, Hfree.
  - apply not_elem_of_cons in Hpre as [Hne Hpre].
    cbn [app pass1_days]. case_bool_decide; [done|].
    unfold get_plan. rewrite Hplan. cbn [mbind result_bind].
    destruct (plan !! d) as [[|shift others]|]; [| |by apply IH].
    { destruct (already_scheduled st e d); [by apply IH|done]. }
    destruct (already_scheduled st e d); [by apply IH|].
    apply IH; [done| |done].
    rewrite already_scheduled_place_other; auto.
Qed.

(** C8. The empty sequence: when the plan of an employee maps [day] to the
    empty sequence and the employee stands in no shift of [day], the day loop
    of Pass 1 for that employee does what it does on the days before [day]
    alone: it ends, and no slot of [day] or of a later day has changed, also
    where the plan names a shift for a later day. *)
Theorem pass1_empty_sequence_stops e st plan day :
  preferences st !! e = Some plan →
  plan !! day = Some [] →
  already_scheduled st e day = false →
  pass1_days e DAYS st = pass1_days e (days_before day) st ∧
  ∃ st', pass1_days e DAYS st = Ok st' ∧
    ∀ d s, day_index day ≤ day_index d → schedule st' d s = schedule st d s.
Proof.
  intros Hplan Hday Hfree.
  assert (pass1_days e DAYS st = pass1_days e (days_before day) st) as Heq.
  { rewrite (DAYS_split day) at 1.
    apply (pass1_days_stops e plan); [done..|].
    rewrite elem_of_days_before. lia. }
  split; [done|].
  destruct (pass1_days_total e (days_before day) st) as [st' Hst']; [eauto|].
  exists st'. split; [by rewrite Heq|].
  intros d s Hle. apply (pass1_days_untouched e (days_before day)); [done|].
  rewrite elem_of_days_before. lia.
Qed.

Lemma pass1_empty_sequence_stops_witness :
  let plan := plan_of [(Monday, []); (Tuesday, [Morning])] in
  preferences empty_monday !! "Alice" = Some plan ∧
  plan !! Monday = Some [] ∧
  already_scheduled empty_monday "Alice" Monday = false ∧
  pass1_days "Alice" DAYS empty_monday =
    pass1_days "Alice" (days_before Monday) empty_monday ∧
  ∃ st', pass1_days "Alice" DAYS empty_monday = Ok st' ∧
    ∀ d s, day_index Monday ≤ day_index d →
      schedule st' d s = schedule empty_monday d s.
Proof.
  split; [reflexivity|]. split; [reflexivity|]. split; [reflexivity|].
  apply (pass1_empty_sequence_stops "Alice" empty_monday
           (plan_of [(Monday, []); (Tuesday, [Morning])]) Monday);
    reflexivity.
Defined.

(** ** Second pass: the backfill of one slot *)

Lemma scan_employees_first_available d s st :
  scan_employees d s (employees st) st =
  match first_available st d s with
  | Some e => (place e d s st, true)
  | None => (st, false)
  end.
Proof. apply scan_employees_first. Qed.

Lemma fill_slot_unfold fuel d s c st :
  fill_slot (S fuel) d s c st =
  if bool_decide (c < MIN_EMPLOYEES_PER_SHIFT) then
    match first_available st d s with
    | Some e => fill_slot fuel d s (S c) (place e d s st)
    | None => st
    end
  else st.
Proof.
  cbn [fill_slot]. rewrite scan_employees_first_available.
  by destruct (first_available st d s).
Qed.

Lemma fill_slot_post fuel d s c st :
  c = length (schedule st d s) →
  MIN_EMPLOYEES_PER_SHIFT - c ≤ fuel →
  MIN_EMPLOYEES_PER_SHIFT ≤ length (schedule (fill_slot fuel d s c st) d s) ∨
  first_available (fill_slot fuel d s c st) d s = None.
Proof.
  revert c st. induction fuel as [|fuel IH]; intros c st Hc Hfuel.
  - left. cbn [fill_slot]. lia.
  - rewrite fill_slot_unfold. case_bool_decide as Hlt; [|left; lia].
    destruct (first_available st d s) as [e|] eqn:Hfirst; [|by right].
    apply IH; [|lia].
    rewrite schedule_place, decide_True by done. rewrite length_app. simpl. lia.
Qed.

(** C6. Backfill: the scan of Pass 2 places the first employee of the
    registration list who is below the cap, stands in no shift of the day and
    is not in the slot, and reports whether it placed one. A slot with two or
    more employees is left as it is; a slot below the minimum with no such
    employee is left as it is, below the minimum, and nothing fails; with such
    an employee the slot receives the employee and is looked at again. So the
    loop leaves a slot with at least two employees or with nobody left to
    place, and the pass visits the slots in the fixed order of [slots]. *)
Theorem backfill_first_available st day shift :
  scan_employees day shift (employees st) st =
    match first_available st day shift with
    | Some e => (place e day shift st, true)
    | None => (st, false)
    end ∧
  (MIN_EMPLOYEES_PER_SHIFT ≤ length (schedule st day shift) →
     ensure_slot day shift st = st) ∧
  (length (schedule st day shift) < MIN_EMPLOYEES_PER_SHIFT →
     first_available st day shift = None →
     ensure_slot day shift st = st) ∧
  (∀ e, length (schedule st day shift) < MIN_EMPLOYEES_PER_SHIFT →
     first_available st day shift = Some e →
     ensure_slot day shift st = ensure_slot day shift (place e day shift st)) ∧
  (MIN_EMPLOYEES_PER_SHIFT ≤
     length (schedule (ensure_slot day shift st) day shift) ∨
   first_available (ensure_slot day shift st) day shift = None) ∧
  _ensure_minimum_coverage st =
    foldl (λ st ds, ensure_slot ds.1 ds.2 st) st slots.
Proof.
  split_and!.
  - apply scan_employees_first_available.
  - intros Hfull. unfold ensure_slot.
    change MIN_EMPLOYEES_PER_SHIFT with (S 1) at 1. rewrite fill_slot_unfold.
    by rewrite bool_decide_eq_false_2 by lia.
  - intros Hlow Hnone. unfold ensure_slot.
    change MIN_EMPLOYEES_PER_SHIFT with (S 1) at 1. rewrite fill_slot_unfold.
    by rewrite bool_decide_eq_true_2, Hnone.
  - intros e Hlow Hsome. unfold ensure_slot.
    change MIN_EMPLOYEES_PER_SHIFT with (S 1) at 1. rewrite fill_slot_unfold.
    rewrite bool_decide_eq_true_2, Hsome by done.
    rewrite schedule_place, decide_True by done.
    rewrite length_app, Nat.add_1_r.
    rewrite (fill_slot_fuel 1), (fill_slot_fuel MIN_EMPLOYEES_PER_SHIFT);
      [done|unfold MIN_EMPLOYEES_PER_SHIFT; lia..].
  - unfold ensure_slot. apply fill_slot_post; [done|lia].
  - apply ensure_minimum_coverage_slots.
Qed.

(** ** Third pass: the days it visits *)

Lemma set_order_elem_of iter X d : set_order iter → d ∈ iter X ↔ d ∈ X.
Proof. intros Hiter. by rewrite (Hiter X), elem_of_elements. Qed.

Lemma set_order_empty iter : set_order iter → iter ∅ = [].
Proof.
  intros Hiter. apply Permutation_nil_r. by rewrite (Hiter ∅), elements_empty.
Qed.

Lemma calendar_order_ok : set_order calendar_order.
Proof.
  intros X. apply NoDup_Permutation.
  - apply NoDup_filter, NoDup_DAYS.
  - apply NoDup_elements.
  - intros d. unfold calendar_order.
    rewrite list_elem_of_filter, elem_of_elements.
    pose proof (elem_of_DAYS d). tauto.
Qed.


Lemma elements_ok : set_order elements.
Proof. by intros X. Qed.

Lemma resolve_days_new fb e plan days sd st e' d s :
  e' ∈ schedule (resolve_days fb e plan days sd st) d s →
  e' ∈ schedule st d s ∨ (e' = e ∧ d ∈ days).
Proof.
  revert sd st. induction days as [|day rest IH]; intros sd st;
    cbn [resolve_days]; [auto|].
  assert (∀ sd' st', e' ∈ schedule (resolve_days fb e plan rest sd' st') d s →
            e' ∈ schedule st' d s ∨ e' = e ∧ d ∈ day :: rest) as IH'.
  { intros sd' st' [H|[-> H]]%IH; [auto|]. right. split; [done|by right]. }
  case_bool_decide as Hcap; [auto|]. case_bool_decide as Hday; [apply IH'|].
  destruct (try_shifts e day (default fb (plan !! day)) st) as [st'|] eqn:Htry;
    [|apply IH'].
  apply try_shifts_Some in Htry as (s' & _ & ->).
  intros [Hin|Hin]%IH'; [|auto].
  apply elem_of_place in Hin as [Hin|(-> & -> & _)]; [auto|].
  right. split; [done|left].
Qed.

Lemma resolve_days_fallback fb fb' e plan days sd st :
  (∀ d, d ∈ days → is_Some (plan !! d)) →
  resolve_days fb e plan days sd st = resolve_days fb' e plan days sd st.
Proof.
  revert sd st. induction days as [|day rest IH]; intros sd st Hdays; [done|].
  cbn [resolve_days].
  assert (∀ d, d ∈ rest → is_Some (plan !! d)) as Hrest
    by (intros d Hd; apply Hdays; by right).
  destruct (Hdays day) as [shifts Hshifts]; [left|]. rewrite Hshifts.
  change (default fb (Some shifts)) with shifts.
  change (default fb' (Some shifts)) with shifts.
  case_bool_decide; [done|].
  case_bool_decide; [by apply IH|].
  destruct (try_shifts e day shifts st); by apply IH.
Qed.

Lemma resolve_employee_fallback fb fb' iter e st :
  set_order iter →
  resolve_employee fb iter e st = resolve_employee fb' iter e st.
Proof.
  intros Hiter. unfold resolve_employee.
  destruct (get_plan st e) as [plan|]; [|done]. cbn [mbind result_bind].
  f_equal. apply resolve_days_fallback. intros d Hd.
  apply (set_order_elem_of iter) in Hd; [|done].
  apply elem_of_difference in Hd as [Hd _]. by apply elem_of_dom.
Qed.

Lemma resolve_employees_fallback fb fb' iter emps st :
  set_order iter →
  resolve_employees fb iter emps st = resolve_employees fb' iter emps st.
Proof.
  intros Hiter. revert st. induction emps as [|e rest IH]; intros st; [done|].
  cbn [resolve_employees]. rewrite (resolve_employee_fallback fb fb') by done.
  destruct (resolve_employee fb' iter e st); [apply IH|done].
Qed.

Lemma resolve_employees_new fb iter emps st st' e d s :
  set_order iter →
  resolve_employees fb iter emps st = Ok st' →
  e ∈ schedule st' d s →
  e ∈ schedule st d s ∨
  ∃ plan, preferences st !! e = Some plan ∧ is_Some (plan !! d).
Proof.
  intros Hiter. revert st. induction emps as [|e0 rest IH]; intros st;
    cbn [resolve_employees].
  - intros [= <-]. auto.
  - intros (st1 & H1 & H2)%bind_Ok Hin.
    pose proof (placements_preferences _ _
                  (resolve_employee_placements _ _ _ _ _ H1)) as Hprefs.
    destruct (IH _ H2 Hin) as [Hin1|Hplan]; [|right; by rewrite <- Hprefs].
    unfold resolve_employee in H1.
    apply bind_Ok in H1 as (plan & Hplan%get_plan_Ok & [= <-]).
    apply resolve_days_new in Hin1 as [?|[-> Hd]]; [auto|].
    right. exists plan. split; [done|].
    apply (set_order_elem_of iter) in Hd; [|done].
    apply elem_of_difference in Hd as [Hd _]. by apply elem_of_dom.
Qed.

(** C10. Pass 3 on preferred days only: when the enumeration of
    [missing_days] yields the elements of that set, every placement
    [_resolve_conflicts] adds is on a day that is a key of the plan of the
    employee placed, and the second argument of [.get(day, self.SHIFTS)] is
    never used: with any other list in its place the pass ends in the same
    scheduler. *)
Theorem resolve_conflicts_preferred_days_only iter st st' :
  set_order iter →
  _resolve_conflicts iter st = Ok st' →
  (∀ e d s, e ∈ schedule st' d s → e ∉ schedule st d s →
     ∃ plan, preferences st !! e = Some plan ∧ is_Some (plan !! d)) ∧
  (∀ fallback, resolve_employees fallback iter (employees st) st = Ok st').
Proof.
  intros Hiter Hrun. split.
  - intros e d s Hin Hnew.
    by destruct (resolve_employees_new _ _ _ _ _ e d s Hiter Hrun Hin).
  - intros fallback. by rewrite (resolve_employees_fallback _ SHIFTS).
Qed.

Lemma resolve_conflicts_preferred_days_only_witness :
  let st' := from_result empty_monday (_resolve_conflicts elements empty_monday) in
  set_order elements ∧
  _resolve_conflicts elements empty_monday = Ok st' ∧
  (∀ e d s, e ∈ schedule st' d s → e ∉ schedule empty_monday d s →
     ∃ plan, preferences empty_monday !! e = Some plan ∧ is_Some (plan !! d)) ∧
  (∀ fallback,
     resolve_employees fallback elements (employees empty_monday) empty_monday
     = Ok st').
Proof.
  assert (_resolve_conflicts elements empty_monday =
          Ok (from_result empty_monday
                (_resolve_conflicts elements empty_monday))) as Hrun
    by (vm_compute; reflexivity).
  split; [exact elements_ok|]. split; [exact Hrun|].
  exact (resolve_conflicts_preferred_days_only elements empty_monday _
           elements_ok Hrun).
Defined.

(** ** The order of [missing_days] *)

Lemma placements_settled st st' e :
  placements st st' → settled st e → settled st' e.
Proof.
  intros Hrun Hset plan Hplan.
  rewrite (placements_preferences _ _ Hrun) in Hplan.
  destruct (Hset plan Hplan) as [Hcap|Hall].
  - left. pose proof (placements_days_worked _ _ e Hrun). lia.
  - right. intros d Hd. eapply placements_already_scheduled; eauto.
Qed.

Lemma pass1_days_settled e plan days st st' :
  preferences st !! e = Some plan →
  map_Forall (λ _ (shifts : list Shift), shifts ≠ []) plan →
  pass1_days e days st = Ok st' →
  MAX_DAYS_PER_WEEK ≤ days_worked st' e ∨
  ∀ d, d ∈ days → is_Some (plan !! d) → already_scheduled st' e d = true.
Proof.
  intros Hplan Hne. revert st Hplan.
  induction days as [|day rest IH]; intros st Hplan; cbn [pass1_days].
  - intros _. right. by intros d Hd%elem_of_nil.
  - case_bool_decide as Hcap; [intros [= <-]; by left|].
    unfold get_plan. rewrite Hplan. cbn [mbind result_bind].
    assert (∀ st1, preferences st1 !! e = Some plan →
              already_scheduled st1 e day = true →
              pass1_days e rest st1 = Ok st' →
              MAX_DAYS_PER_WEEK ≤ days_worked st' e ∨
              ∀ d, d ∈ day :: rest → is_Some (plan !! d) →
                   already_scheduled st' e d = true) as Hstep.
    { intros st1 Hplan1 Hday Hrun.
      destruct (IH st1 Hplan1 Hrun) as [?|Hall]; [by left|]. right.
      intros d [->|Hd]%elem_of_cons Hsome; [|by apply Hall].
      eapply placements_already_scheduled; [|exact Hday].
      by eapply pass1_days_placements. }
    destruct (plan !! day) as [[|shift others]|] eqn:Hday.
    + by destruct (Hne day [] Hday).
    + destruct (already_scheduled st e day) eqn:Hfree; [by apply Hstep|].
      apply Hstep; [done|apply already_scheduled_place_same].
    + intros Hrun. destruct (IH st Hplan Hrun) as [?|Hall]; [by left|]. right.
      intros d [->|Hd]%elem_of_cons Hsome; [|by apply Hall].
      rewrite Hday in Hsome. by destruct Hsome.
Qed.

Lemma pass1_employees_settled emps st st' e :
  no_empty_sequence st →
  pass1_employees emps st = Ok st' →
  e ∈ emps → settled st' e.
Proof.
  revert st. induction emps as [|e0 rest IH]; intros st Hne;
    cbn [pass1_employees]; [by intros _ ?%elem_of_nil|].
  intros (st1 & H1 & H2)%bind_Ok Hin.
  pose proof (pass1_days_placements _ _ _ _ H1) as P1.
  pose proof (pass1_employees_placements _ _ _ H2) as P2.
  assert (no_empty_sequence st1) as Hne1.
  { unfold no_empty_sequence. by rewrite (placements_preferences _ _ P1). }
  destruct (decide (e ∈ rest)) as [Hrest|Hrest]; [by apply (IH st1)|].
  apply elem_of_cons in Hin as [->|?]; [|done].
  apply (placements_settled st1); [done|].
  intros plan Hplan. rewrite (placements_preferences _ _ P1) in Hplan.
  destruct (pass1_days_settled e0 plan DAYS st st1 Hplan) as [?|Hall];
    [by apply (Hne e0)|done|by left|].
  right. intros d. apply Hall, elem_of_DAYS.
Qed.

Lemma resolve_employee_settled fb iter e st :
  set_order iter → settled st e →
  resolve_employee fb iter e st = get_plan st e ≫= λ _, Ok st.
Proof.
  intros Hiter Hset. unfold resolve_employee.
  destruct (get_plan st e) as [plan|] eqn:Hplan; [|done].
  cbn [mbind result_bind]. f_equal. apply get_plan_Ok in Hplan.
  destruct (Hset plan Hplan) as [Hcap|Hall].
  - destruct (iter _) as [|d days]; [done|]. cbn [resolve_days].
    by rewrite bool_decide_eq_true_2.
  - assert (dom plan ∖ scheduled_days_of st e = ∅) as ->.
    { apply set_eq. intros d.
      rewrite elem_of_difference, elem_of_dom, scheduled_days_of_spec.
      split; [|by intros ?%elem_of_empty].
      intros [Hd Hno]. destruct Hno. by apply Hall. }
    by rewrite (set_order_empty iter).
Qed.

Lemma resolve_employees_settled fb iter iter' emps st :
  set_order iter → set_order iter' →
  (∀ e, e ∈ emps → settled st e) →
  resolve_employees fb iter emps st = resolve_employees fb iter' emps st ∧
  (Forall (λ e, is_Some (preferences st !! e)) emps →
   resolve_employees fb iter emps st = Ok st).
Proof.
  intros Hiter Hiter'. induction emps as [|e rest IH]; intros Hset; [done|].
  cbn [resolve_employees].
  rewrite !resolve_employee_settled by (done || apply Hset; left).
  destruct IH as [IH1 IH2]; [intros e' He'; apply Hset; by right|].
  unfold get_plan. split.
  - by destruct (preferences st !! e).
  - intros [[plan ->] Hrest]%Forall_cons. by apply IH2.
Qed.




(** ** Whole runs: what they keep and what they never do *)

Lemma assign_shifts_placements iter st st' :
  assign_shifts iter st = Ok st' → placements st st'.
Proof.
  unfold assign_shifts, first_pass, _resolve_conflicts.
  intros (s1 & H1 & H3)%bind_Ok.
  apply pass1_employees_placements in H1.
  apply resolve_employees_placements in H3.
  eapply placements_trans; [exact H1|].
  eapply placements_trans; [apply ensure_minimum_coverage_placements|exact H3].
Qed.

Lemma placements_slots_duplicate_free st st' :
  placements st st' → slots_duplicate_free st → slots_duplicate_free st'.
Proof.
  induction 1 as [st|st st' e d s _ IH Hcap Hfree]; [done|].
  intros Hst d' s'. specialize (IH Hst). rewrite schedule_place.
  case_decide as Heq; [|apply IH]. destruct Heq as [-> ->].
  apply NoDup_app. split; [apply IH|]. split; [|apply NoDup_singleton].
  intros x Hx Hx'. apply list_elem_of_singleton in Hx' as ->.
  rewrite already_scheduled_false in Hfree. by apply (Hfree s).
Qed.

(** X1. A slot never lists an employee twice: a run of [assign_shifts] on a
    scheduler whose slots are duplicate-free ends with duplicate-free slots. *)
Theorem assign_shifts_slots_duplicate_free iter st st' :
  slots_duplicate_free st →
  assign_shifts iter st = Ok st' →
  ∀ d s, NoDup (schedule st' d s).
Proof.
  intros Hst Hrun. apply (placements_slots_duplicate_free st); [|done].
  by apply (assign_shifts_placements iter).
Qed.

Lemma build_slots_duplicate_free regs : slots_duplicate_free (build regs).
Proof. intros d s. rewrite build_slot_empty. apply NoDup_nil_2. Qed.

Lemma assign_shifts_from_result iter regs :
  assign_shifts iter (build regs) =
  Ok (from_result (build regs) (assign_shifts iter (build regs))).
Proof.
  destruct (passes_run iter _ (build_registered regs))
    as (s1 & s3 & _ & _ & -> & _). done.
Qed.

Lemma assign_shifts_slots_duplicate_free_witness :
  let st' := from_result staffed_week (assign_shifts elements staffed_week) in
  slots_duplicate_free staffed_week ∧
  assign_shifts elements staffed_week = Ok st' ∧
  ∀ d s, NoDup (schedule st' d s).
Proof.
  pose proof (build_slots_duplicate_free
    [("e1", ∅); ("e2", ∅); ("e3", ∅); ("e4", ∅); ("e5", ∅); ("e6", ∅);
     ("Alice", plan_of [(Monday, []); (Tuesday, [Morning]);
                        (Wednesday, [Morning]); (Thursday, [Morning]);
                        (Friday, [Morning])])]) as H1.
  pose proof (assign_shifts_from_result elements
    [("e1", ∅); ("e2", ∅); ("e3", ∅); ("e4", ∅); ("e5", ∅); ("e6", ∅);
     ("Alice", plan_of [(Monday, []); (Tuesday, [Morning]);
                        (Wednesday, [Morning]); (Thursday, [Morning]);
                        (Friday, [Morning])])]) as H2.
  split; [exact H1|]. split; [exact H2|].
  exact (assign_shifts_slots_duplicate_free elements staffed_week _ H1 H2).
Defined.

(** X2. A run reads the employee list and the preferences and never writes
    them: after [assign_shifts] both are what they were. *)
Theorem assign_shifts_keeps_registrations iter st st' :
  assign_shifts iter st = Ok st' →
  employees st' = employees st ∧ preferences st' = preferences st.
Proof.
  intros Hrun%assign_shifts_placements.
  split; [by apply placements_employees|by apply placements_preferences].
Qed.

Lemma assign_shifts_keeps_registrations_witness :
  let st' := from_result two_mornings (assign_shifts elements two_mornings) in
  assign_shifts elements two_mornings = Ok st' ∧
  employees st' = employees two_mornings ∧
  preferences st' = preferences two_mornings.
Proof.
  pose proof (assign_shifts_from_result elements
    [("Alice", plan_of [(Monday, [Morning])]);
     ("Bob", plan_of [(Monday, [Morning])])]) as H.
  split; [exact H|].
  exact (assign_shifts_keeps_registrations elements two_mornings _ H).
Defined.

(** ** Who is placed *)

Lemma only_adds_refl names st : only_adds names st st.
Proof. intros e d s H. by left. Qed.

Lemma only_adds_trans names st1 st2 st3 :
  only_adds names st1 st2 → only_adds names st2 st3 → only_adds names st1 st3.
Proof.
  intros H12 H23 e d s H. destruct (H23 e d s H) as [H2|?]; [|by right].
  by apply H12.
Qed.

Lemma only_adds_place names e d s st :
  e ∈ names → only_adds names st (place e d s st).
Proof.
  intros He e' d' s' [H|(-> & _)]%elem_of_place; [by left|by right].
Qed.

Lemma only_adds_weaken names names' st st' :
  names ⊆ names' → only_adds names st st' → only_adds names' st st'.
Proof.
  intros Hsub H e d s Hin. destruct (H e d s Hin) as [?|?]; [by left|].
  right. by apply Hsub.
Qed.

Lemma pass1_days_only_adds e days st st' :
  pass1_days e days st = Ok st' → only_adds [e] st st'.
Proof.
  revert st. induction days as [|day rest IH]; intros st; cbn [pass1_days].
  - intros [= <-]. apply only_adds_refl.
  - case_bool_decide as Hcap; [intros [= <-]; apply only_adds_refl|].
    intros (plan & _ & H)%bind_Ok.
    destruct (plan !! day) as [[|shift others]|]; [| |by apply IH].
    + destruct (already_scheduled st e day); [by apply IH|].
      injection H as <-. apply only_adds_refl.
    + destruct (already_scheduled st e day); [by apply IH|].
      apply (only_adds_trans _ _ (place e day shift st));
        [apply only_adds_place; by left | by apply IH].
Qed.

Lemma pass1_employees_only_adds emps st st' :
  pass1_employees emps st = Ok st' → only_adds emps st st'.
Proof.
  revert st. induction emps as [|e rest IH]; intros st;
    cbn [pass1_employees].
  - intros [= <-]. apply only_adds_refl.
  - intros (st1 & H1 & H2)%bind_Ok.
    apply (only_adds_trans _ _ st1).
    + apply (only_adds_weaken [e]);
        [|by apply (pass1_days_only_adds e DAYS)].
      intros x ->%list_elem_of_singleton. by left.
    + apply (only_adds_weaken rest); [|by apply IH].
      intros x Hx. by right.
Qed.

Lemma fill_slot_only_adds fuel d s c st :
  only_adds (employees st) st (fill_slot fuel d s c st).
Proof.
  revert c st. induction fuel as [|fuel IH]; intros c st;
    [apply only_adds_refl|].
  rewrite fill_slot_unfold. case_bool_decide; [|apply only_adds_refl].
  destruct (first_available st d s) as [e|] eqn:Hfirst; [|apply only_adds_refl].
  apply first_available_Some in Hfirst as [He _].
  apply (only_adds_trans _ _ (place e d s st)); [by apply only_adds_place|].
  apply (IH _ (place e d s st)).
Qed.

Lemma foldl_ensure_slot_only_adds l st :
  only_adds (employees st) st (foldl (λ st ds, ensure_slot ds.1 ds.2 st) st l).
Proof.
  revert st. induction l as [|[d s] l IH]; intros st; [apply only_adds_refl|].
  cbn [foldl]. apply (only_adds_trans _ _ (ensure_slot d s st));
    [apply fill_slot_only_adds|].
  specialize (IH (ensure_slot d s st)).
  by rewrite (placements_employees _ _ (ensure_slot_placements d s st)) in IH.
Qed.

Lemma resolve_days_only_adds fb e plan days sd st :
  only_adds [e] st (resolve_days fb e plan days sd st).
Proof.
  intros e' d s [?|[-> _]]%resolve_days_new; [by left|right; by left].
Qed.

Lemma resolve_employees_only_adds fb iter emps st st' :
  resolve_employees fb iter emps st = Ok st' → only_adds emps st st'.
Proof.
  revert st. induction emps as [|e rest IH]; intros st;
    cbn [resolve_employees].
  - intros [= <-]. apply only_adds_refl.
  - intros (st1 & H1 & H2)%bind_Ok.
    apply (only_adds_trans _ _ st1).
    + unfold resolve_employee in H1.
      apply bind_Ok in H1 as (plan & _ & [= <-]).
      apply (only_adds_weaken [e]); [|apply resolve_days_only_adds].
      intros x ->%list_elem_of_singleton. by left.
    + apply (only_adds_weaken rest); [|by apply IH].
      intros x Hx. by right.
Qed.

(** X3. Nobody outside the employee list is ever scheduled: every name a
    run of [assign_shifts] leaves in a slot was in that slot before the run
    or is a name of [self.employees]. *)
Theorem assign_shifts_places_employees_only iter st st' :
  assign_shifts iter st = Ok st' →
  ∀ e d s, e ∈ schedule st' d s → e ∈ schedule st d s ∨ e ∈ employees st.
Proof.
  unfold assign_shifts, first_pass, _resolve_conflicts.
  intros (s1 & H1 & H3)%bind_Ok.
  pose proof (pass1_employees_placements _ _ _ H1) as P1.
  pose proof (ensure_minimum_coverage_placements s1) as P2.
  apply pass1_employees_only_adds in H1.
  apply resolve_employees_only_adds in H3.
  rewrite (placements_employees _ _ P2), (placements_employees _ _ P1) in H3.
  pose proof (foldl_ensure_slot_only_adds slots s1) as H2.
  rewrite <- ensure_minimum_coverage_slots in H2.
  rewrite (placements_employees _ _ P1) in H2.
  exact (only_adds_trans _ _ _ _ H1 (only_adds_trans _ _ _ _ H2 H3)).
Qed.

Lemma assign_shifts_places_employees_only_witness :
  let st' := from_result two_mornings (assign_shifts elements two_mornings) in
  assign_shifts elements two_mornings = Ok st' ∧
  ∀ e d s, e ∈ schedule st' d s →
    e ∈ schedule two_mornings d s ∨ e ∈ employees two_mornings.
Proof.
  pose proof (assign_shifts_from_result elements
    [("Alice", plan_of [(Monday, [Morning])]);
     ("Bob", plan_of [(Monday, [Morning])])]) as H.
  split; [exact H|].
  exact (assign_shifts_places_employees_only elements two_mornings _ H).
Defined.

(** ** Coverage *)

Lemma placements_available st st' d s e :
  placements st st' → available st' d s e → available st d s e.
Proof.
  intros Hrun (Hcap & Hfree & Hin). split_and!.
  - pose proof (placements_days_worked _ _ e Hrun). lia.
  - apply not_true_iff_false. intros H.
    apply (placements_already_scheduled _ _ _ _ Hrun) in H. congruence.
  - intros H. apply Hin.
    destruct (placements_extends _ _ Hrun) as [Hpre _].
    destruct (Hpre d s) as [k ->]. apply elem_of_app. by left.
Qed.

Lemma first_available_None st d s :
  first_available st d s = None ↔
  ∀ e, e ∈ employees st → ¬ available st d s e.
Proof.
  unfold first_available. rewrite head_None. split.
  - intros Hnil e He Hav.
    assert (e ∈ filter (available st d s) (employees st)) as Hin
      by (by apply list_elem_of_filter).
    rewrite Hnil in Hin. by apply elem_of_nil in Hin.
  - intros Hnone. destruct (filter _ _) as [|e l] eqn:Hf; [done|].
    assert (e ∈ filter (available st d s) (employees st)) as Hin
      by (rewrite Hf; left).
    apply list_elem_of_filter in Hin as [Hav He]. by destruct (Hnone e He).
Qed.

Lemma ensure_slot_covered d s st :
  MIN_EMPLOYEES_PER_SHIFT ≤ length (schedule (ensure_slot d s st) d s) ∨
  ∀ e, e ∈ employees (ensure_slot d s st) →
       ¬ available (ensure_slot d s st) d s e.
Proof.
  destruct (fill_slot_post MIN_EMPLOYEES_PER_SHIFT d s
              (length (schedule st d s)) st) as [?|Hnone];
    [done|lia|by left|right].
  by apply first_available_None.
Qed.

Lemma placements_covered st st' d s :
  placements st st' →
  (MIN_EMPLOYEES_PER_SHIFT ≤ length (schedule st d s) ∨
   ∀ e, e ∈ employees st → ¬ available st d s e) →
  MIN_EMPLOYEES_PER_SHIFT ≤ length (schedule st' d s) ∨
  ∀ e, e ∈ employees st' → ¬ available st' d s e.
Proof.
  intros Hrun [Hlen|Hnone].
  - left. destruct (placements_extends _ _ Hrun) as [Hpre _].
    destruct (Hpre d s) as [k ->]. rewrite length_app. lia.
  - right. intros e He Hav. rewrite (placements_employees _ _ Hrun) in He.
    apply (Hnone e He). by apply (placements_available st st').
Qed.

Lemma foldl_ensure_slot_covered l st d s :
  (d, s) ∈ l →
  let st' := foldl (λ st ds, ensure_slot ds.1 ds.2 st) st l in
  MIN_EMPLOYEES_PER_SHIFT ≤ length (schedule st' d s) ∨
  ∀ e, e ∈ employees st' → ¬ available st' d s e.
Proof.
  revert st. induction l as [|[d0 s0] l IH]; intros st Hin;
    [by apply elem_of_nil in Hin|].
  cbn [foldl]. destruct (decide ((d, s) ∈ l)) as [Hl|Hl]; [by apply IH|].
  apply elem_of_cons in Hin as [[= <- <-]|?]; [|done].
  apply (placements_covered (ensure_slot d s st));
    [apply foldl_ensure_slot_placements|apply ensure_slot_covered].
Qed.

Lemma elem_of_slots d s : (d, s) ∈ slots.
Proof. destruct d, s; by apply (bool_decide_unpack _). Qed.

Lemma ensure_minimum_coverage_covers st :
  coverage_maximal (_ensure_minimum_coverage st).
Proof.
  intros d s. rewrite ensure_minimum_coverage_slots.
  apply foldl_ensure_slot_covered, elem_of_slots.
Qed.

Lemma assign_shifts_covers iter st st' :
  assign_shifts iter st = Ok st' → coverage_maximal st'.
Proof.
  unfold assign_shifts, _resolve_conflicts.
  intros (s1 & _ & H3)%bind_Ok d s.
  apply (placements_covered (_ensure_minimum_coverage s1));
    [by eapply resolve_employees_placements
    |apply ensure_minimum_coverage_covers].
Qed.

(** X4. Coverage is as good as the rules allow: after
    [_ensure_minimum_coverage], and so after a whole run of [assign_shifts],
    every slot holds at least [MIN_EMPLOYEES_PER_SHIFT] employees or no
    employee of the list can be added to it (each one is at the cap or works
    that day already). *)
Theorem coverage_maximal_after_backfill st :
  coverage_maximal (_ensure_minimum_coverage st) ∧
  ∀ iter st', assign_shifts iter st = Ok st' → coverage_maximal st'.
Proof.
  split; [apply ensure_minimum_coverage_covers|].
  intros iter st'. apply assign_shifts_covers.
Qed.

(** ** Employees at the cap *)

Lemma placements_capped st st' e :
  placements st st' →
  MAX_DAYS_PER_WEEK ≤ days_worked st e →
  days_worked st' e = days_worked st e ∧
  ∀ d s, e ∈ schedule st' d s → e ∈ schedule st d s.
Proof.
  induction 1 as [st|st st' e0 d0 s0 _ IH Hcap Hfree]; [done|].
  intros Hfull. destruct (IH Hfull) as [IHc IHs].
  assert (e ≠ e0) as Hne by (intros ->; lia). split.
  - rewrite days_worked_place. by rewrite decide_False.
  - intros d s [H|(? & _)]%elem_of_place; [by apply IHs|done].
Qed.

(** X5. An employee at the cap is left alone: a run of [assign_shifts]
    neither places an employee whose counter has reached
    [MAX_DAYS_PER_WEEK] in any slot nor changes that counter. *)
Theorem assign_shifts_leaves_capped_alone iter st st' e :
  MAX_DAYS_PER_WEEK ≤ days_worked st e →
  assign_shifts iter st = Ok st' →
  days_worked st' e = days_worked st e ∧
  ∀ d s, e ∈ schedule st' d s → e ∈ schedule st d s.
Proof.
  intros Hfull Hrun%assign_shifts_placements.
  by apply placements_capped.
Qed.

Lemma assign_shifts_leaves_capped_alone_witness :
  let st := from_result two_mornings (assign_shifts elements two_mornings) in
  let st' := from_result st (assign_shifts elements st) in
  MAX_DAYS_PER_WEEK ≤ days_worked st "Alice" ∧
  assign_shifts elements st = Ok st' ∧
  days_worked st' "Alice" = days_worked st "Alice" ∧
  ∀ d s, "Alice" ∈ schedule st' d s → "Alice" ∈ schedule st d s.
Proof.
  assert (MAX_DAYS_PER_WEEK ≤
          days_worked (from_result two_mornings
                         (assign_shifts elements two_mornings)) "Alice") as H1
    by (vm_compute; lia).
  assert (assign_shifts elements
            (from_result two_mornings (assign_shifts elements two_mornings)) =
          Ok (from_result
                (from_result two_mornings (assign_shifts elements two_mornings))
                (assign_shifts elements
                   (from_result two_mornings
                      (assign_shifts elements two_mornings))))) as H2
    by (vm_compute; reflexivity).
  split; [exact H1|]. split; [exact H2|].
  exact (assign_shifts_leaves_capped_alone elements _ _ "Alice" H1 H2).
Defined.

(** ** A second run *)

Lemma placements_saturated st st' e :
  placements st st' → saturated st e → saturated st' e.
Proof.
  intros Hrun Hsat plan Hplan.
  rewrite (placements_preferences _ _ Hrun) in Hplan.
  destruct (Hsat plan Hplan) as [Hcap|Hall].
  - left. pose proof (placements_days_worked _ _ e Hrun). lia.
  - right. intros d shifts Hd Hne.
    eapply placements_already_scheduled; eauto.
Qed.

Lemma try_shifts_free e d shift rest st :
  already_scheduled st e d = false →
  try_shifts e d (shift :: rest) st = Some (place e d shift st).
Proof.
  intros Hfree. cbn [try_shifts]. rewrite bool_decide_eq_true_2; [done|].
  by apply already_scheduled_false.
Qed.

Lemma resolve_days_saturates fb e plan days sd st :
  (∀ d, d ∈ sd ↔ already_scheduled st e d = true) →
  let st' := resolve_days fb e plan days sd st in
  MAX_DAYS_PER_WEEK ≤ days_worked st' e ∨
  ∀ d shifts, d ∈ days → plan !! d = Some shifts → shifts ≠ [] →
    already_scheduled st' e d = true.
Proof.
  revert sd st. induction days as [|day rest IH]; intros sd st Hsd;
    cbn [resolve_days].
  - right. by intros d shifts Hd%elem_of_nil.
  - case_bool_decide as Hcap; [by left|].
    assert (∀ sd1 st1,
      (∀ d, d ∈ sd1 ↔ already_scheduled st1 e d = true) →
      (∀ shifts, plan !! day = Some shifts → shifts ≠ [] →
         already_scheduled st1 e day = true) →
      MAX_DAYS_PER_WEEK ≤ days_worked (resolve_days fb e plan rest sd1 st1) e ∨
      ∀ d shifts, d ∈ day :: rest → plan !! d = Some shifts → shifts ≠ [] →
        already_scheduled (resolve_days fb e plan rest sd1 st1) e d = true)
      as Hstep.
    { intros sd1 st1 Hsd1 Hday.
      destruct (IH sd1 st1 Hsd1) as [?|Hall]; [by left|right].
      intros d shifts [->|Hd]%elem_of_cons Hplan Hne; [|by eapply Hall].
      eapply placements_already_scheduled; [|by eapply Hday].
      apply resolve_days_placements. intros d' Hd'. by apply Hsd1. }
    case_bool_decide as Hday.
    { apply Hstep; [done|]. intros _ _ _. by apply Hsd. }
    assert (already_scheduled st e day = false) as Hfree.
    { apply not_true_iff_false. intros H. by apply Hday, Hsd. }
    destruct (plan !! day) as [[|shift others]|] eqn:Hplan.
    + cbn [default from_option id try_shifts]. apply Hstep; [done|].
      by intros shifts [= <-].
    + change (default fb (Some (shift :: others))) with (shift :: others).
      rewrite try_shifts_free by done. apply Hstep.
      * intros d. rewrite elem_of_union, elem_of_singleton, Hsd,
          already_scheduled_place. tauto.
      * intros _ _ _. apply already_scheduled_place_same.
    + destruct (try_shifts e day (default fb None) st) as [st1|] eqn:Htry.
      * apply try_shifts_Some in Htry as (s & _ & ->). apply Hstep.
        -- intros d. rewrite elem_of_union, elem_of_singleton, Hsd,
             already_scheduled_place. tauto.
        -- intros _ _ _. apply already_scheduled_place_same.
      * apply Hstep; [done|]. by intros shifts.
Qed.

Lemma resolve_employee_saturates fb iter e st st' :
  set_order iter →
  resolve_employee fb iter e st = Ok st' → saturated st' e.
Proof.
  intros Hiter. unfold resolve_employee.
  intros (plan & Hplan%get_plan_Ok & [= <-])%bind_Ok plan'.
  erewrite placements_preferences;
    [|apply resolve_days_placements; intros d; by rewrite scheduled_days_of_spec].
  rewrite Hplan. intros [= <-].
  pose proof (resolve_days_saturates fb e plan
    (iter (dom plan ∖ scheduled_days_of st e)) (scheduled_days_of st e) st
    (scheduled_days_of_spec st e)) as [?|Hall]; [by left|right].
  intros d shifts Hd Hne.
  destruct (already_scheduled st e d) eqn:Hsched.
  - eapply placements_already_scheduled; [|exact Hsched].
    apply resolve_days_placements. intros d'. by rewrite scheduled_days_of_spec.
  - apply (Hall d shifts); [|done..].
    apply (set_order_elem_of iter); [done|].
    apply elem_of_difference. split; [apply elem_of_dom; eauto|].
    rewrite scheduled_days_of_spec. congruence.
Qed.

Lemma resolve_employees_saturates fb iter emps st st' e :
  set_order iter →
  resolve_employees fb iter emps st = Ok st' →
  e ∈ emps → saturated st' e.
Proof.
  intros Hiter. revert st. induction emps as [|e0 rest IH]; intros st;
    cbn [resolve_employees]; [by intros _ ?%elem_of_nil|].
  intros (st1 & H1 & H2)%bind_Ok Hin.
  destruct (decide (e ∈ rest)) as [Hrest|Hrest]; [by apply (IH st1)|].
  apply elem_of_cons in Hin as [->|?]; [|done].
  apply (placements_saturated st1);
    [by eapply resolve_employees_placements|].
  by eapply resolve_employee_saturates.
Qed.

Lemma pass1_days_saturated e plan days st :
  preferences st !! e = Some plan → saturated st e →
  pass1_days e days st = Ok st.
Proof.
  intros Hplan Hsat. induction days as [|day rest IH]; [done|].
  cbn [pass1_days]. case_bool_decide as Hcap; [done|].
  unfold get_plan. rewrite Hplan. cbn [mbind result_bind].
  destruct (plan !! day) as [shifts|] eqn:Hday; [|done].
  destruct (already_scheduled st e day) eqn:Hfree; [done|].
  destruct shifts as [|shift others]; [done|].
  destruct (Hsat plan Hplan) as [?|Hall]; [lia|].
  rewrite (Hall day (shift :: others)) in Hfree; done.
Qed.

Lemma pass1_employees_saturated emps st :
  Forall (λ e, is_Some (preferences st !! e)) emps →
  (∀ e, e ∈ emps → saturated st e) →
  pass1_employees emps st = Ok st.
Proof.
  induction emps as [|e rest IH]; intros Hreg Hsat; [done|].
  apply Forall_cons in Hreg as [[plan Hplan] Hreg].
  cbn [pass1_employees].
  rewrite (pass1_days_saturated e plan) by (done || apply Hsat; left).
  cbn [mbind result_bind]. apply IH; [done|]. intros e' He'. apply Hsat.
  by right.
Qed.

Lemma ensure_slot_covered_noop d s st :
  (MIN_EMPLOYEES_PER_SHIFT ≤ length (schedule st d s) ∨
   ∀ e, e ∈ employees st → ¬ available st d s e) →
  ensure_slot d s st = st.
Proof.
  intros Hcov. unfold ensure_slot.
  change MIN_EMPLOYEES_PER_SHIFT with (S 1) at 1. rewrite fill_slot_unfold.
  case_bool_decide as Hlow; [|done].
  destruct Hcov as [?|Hnone]; [lia|].
  apply first_available_None in Hnone. by rewrite Hnone.
Qed.

Lemma ensure_minimum_coverage_noop st :
  coverage_maximal st → _ensure_minimum_coverage st = st.
Proof.
  intros Hcov. rewrite ensure_minimum_coverage_slots.
  induction slots as [|[d s] l IH]; [done|]. cbn [foldl].
  by rewrite ensure_slot_covered_noop.
Qed.

Lemma resolve_days_saturated fb e plan days sd st :
  (∀ d, d ∈ days → is_Some (plan !! d)) →
  (∀ d, d ∈ sd ↔ already_scheduled st e d = true) →
  (MAX_DAYS_PER_WEEK ≤ days_worked st e ∨
   ∀ d shifts, plan !! d = Some shifts → shifts ≠ [] →
     already_scheduled st e d = true) →
  resolve_days fb e plan days sd st = st.
Proof.
  intros Hdays Hsd Hsat. induction days as [|day rest IH]; [done|].
  assert (resolve_days fb e plan rest sd st = st) as Hrest
    by (apply IH; intros d Hd; apply Hdays; by right).
  cbn [resolve_days]. case_bool_decide as Hcap; [done|].
  case_bool_decide as Hday; [done|].
  destruct Hsat as [?|Hall]; [lia|].
  destruct (Hdays day) as [shifts Hplan]; [left|]. rewrite Hplan.
  change (default fb (Some shifts)) with shifts.
  destruct shifts as [|shift others]; [done|].
  destruct Hday. apply Hsd. by apply (Hall day (shift :: others)).
Qed.

Lemma resolve_employees_saturated fb iter emps st :
  set_order iter →
  Forall (λ e, is_Some (preferences st !! e)) emps →
  (∀ e, e ∈ emps → saturated st e) →
  resolve_employees fb iter emps st = Ok st.
Proof.
  intros Hiter. induction emps as [|e rest IH]; intros Hreg Hsat; [done|].
  apply Forall_cons in Hreg as [[plan Hplan] Hreg].
  cbn [resolve_employees]. unfold resolve_employee, get_plan. rewrite Hplan.
  cbn [mbind result_bind]. rewrite resolve_days_saturated.
  - apply IH; [done|]. intros e' He'. apply Hsat. by right.
  - intros d Hd. apply (set_order_elem_of iter) in Hd; [|done].
    apply elem_of_difference in Hd as [Hd _]. by apply elem_of_dom.
  - apply scheduled_days_of_spec.
  - apply (Hsat e); [left|done].
Qed.

Lemma resolve_employees_Ok_registered fb iter emps st st' :
  resolve_employees fb iter emps st = Ok st' →
  Forall (λ e, is_Some (preferences st !! e)) emps.
Proof.
  revert st. induction emps as [|e rest IH]; intros st;
    [intros _; apply Forall_nil_2|].
  cbn [resolve_employees]. intros (st1 & H1 & H2)%bind_Ok.
  pose proof (resolve_employee_placements _ _ _ _ _ H1) as P1.
  apply Forall_cons. split.
  - unfold resolve_employee in H1.
    apply bind_Ok in H1 as (plan & Hplan%get_plan_Ok & _). eauto.
  - rewrite <- (placements_preferences _ _ P1). by apply (IH st1).
Qed.

Lemma assign_shifts_registered iter st st' :
  assign_shifts iter st = Ok st' → registered st'.
Proof.
  unfold assign_shifts, first_pass, _resolve_conflicts.
  intros (s1 & H1 & H3)%bind_Ok.
  pose proof (resolve_employees_placements _ _ _ _ _ H3) as P3.
  unfold registered.
  rewrite (placements_employees _ _ P3), (placements_preferences _ _ P3).
  by eapply resolve_employees_Ok_registered.
Qed.

(** X6. A second run changes nothing: when [assign_shifts] has ended, with
    [missing_days] walked in any order that yields every element, calling it
    again on the scheduler it left (again in any such order) ends at once in
    the same scheduler: nobody is placed, no counter moves. *)
Theorem assign_shifts_idempotent iter iter' st st' :
  set_order iter →
  set_order iter' →
  assign_shifts iter st = Ok st' →
  assign_shifts iter' st' = Ok st'.
Proof.
  intros Hiter Hiter' Hrun.
  pose proof (assign_shifts_registered _ _ _ Hrun) as Hreg.
  pose proof (assign_shifts_covers _ _ _ Hrun) as Hcov.
  assert (∀ e, e ∈ employees st' → saturated st' e) as Hsat.
  { revert Hrun. unfold assign_shifts, _resolve_conflicts.
    intros (s1 & _ & H3)%bind_Ok e He.
    apply (resolve_employees_saturates SHIFTS iter _ _ _ e Hiter H3).
    by rewrite <- (placements_employees _ _
                     (resolve_employees_placements _ _ _ _ _ H3)). }
  unfold assign_shifts, first_pass, _resolve_conflicts.
  rewrite pass1_employees_saturated by done. cbn [mbind result_bind].
  rewrite ensure_minimum_coverage_noop by done.
  by apply resolve_employees_saturated.
Qed.

Lemma assign_shifts_idempotent_witness :
  let st' := from_result staffed_week (assign_shifts elements staffed_week) in
  set_order elements ∧ set_order calendar_order ∧
  assign_shifts elements staffed_week = Ok st' ∧
  assign_shifts calendar_order st' = Ok st'.
Proof.
  pose proof (assign_shifts_from_result elements
    [("e1", ∅); ("e2", ∅); ("e3", ∅); ("e4", ∅); ("e5", ∅); ("e6", ∅);
     ("Alice", plan_of [(Monday, []); (Tuesday, [Morning]);
                        (Wednesday, [Morning]); (Thursday, [Morning]);
                        (Friday, [Morning])])]) as H.
  split; [exact elements_ok|]. split; [exact calendar_order_ok|].
  split; [exact H|].
  exact (assign_shifts_idempotent elements calendar_order staffed_week _
           elements_ok calendar_order_ok H).
Defined.

(** ** Registration *)

Lemma add_employee_employees name plan st :
  employees (add_employee name plan st) =
  if bool_decide (name ∈ employees st) then employees st
  else employees st ++ [name].
Proof. unfold add_employee. by case_bool_decide. Qed.

Lemma add_employee_preferences name plan st :
  preferences (add_employee name plan st) =
  if bool_decide (name ∈ employees st) then preferences st
  else <[name := plan]> (preferences st).
Proof. unfold add_employee. by case_bool_decide. Qed.

Lemma build_elem_of regs name :
  name ∈ employees (build regs) ↔ name ∈ regs.*1.
Proof.
  induction regs as [|[n p] regs IH] using rev_ind.
  - split; by intros ?%elem_of_nil.
  - rewrite build_snoc, add_employee_employees, fmap_app, elem_of_app.
    cbn [fst snd fmap list_fmap]. rewrite list_elem_of_singleton.
    case_bool_decide as Hin.
    + rewrite IH. split; [by left|]. intros [? | ->]; [done|by apply IH].
    + by rewrite elem_of_app, IH, list_elem_of_singleton.
Qed.

Lemma build_NoDup regs : NoDup (employees (build regs)).
Proof.
  induction regs as [|[n p] regs IH] using rev_ind; [apply NoDup_nil_2|].
  rewrite build_snoc, add_employee_employees. cbn [fst snd].
  case_bool_decide as Hin; [done|].
  apply NoDup_app. split; [done|]. split; [|apply NoDup_singleton].
  by intros x Hx ->%list_elem_of_singleton.
Qed.

Lemma build_prefix pre post :
  employees (build pre) `prefix_of` employees (build (pre ++ post)).
Proof.
  induction post as [|[n p] post IH] using rev_ind.
  - by rewrite app_nil_r.
  - rewrite app_assoc, build_snoc, add_employee_employees.
    case_bool_decide; [done|]. by apply prefix_app_r.
Qed.

Lemma build_dom regs name :
  is_Some (preferences (build regs) !! name) ↔ name ∈ employees (build regs).
Proof.
  induction regs as [|[n p] regs IH] using rev_ind.
  - cbn. rewrite lookup_empty. split; [by intros [? ?]|by intros ?%elem_of_nil].
  - rewrite build_snoc, add_employee_employees, add_employee_preferences.
    cbn [fst snd]. case_bool_decide as Hin; [done|].
    rewrite elem_of_app, list_elem_of_singleton, <- IH.
    destruct (decide (name = n)) as [->|Hne].
    + rewrite lookup_insert_eq. split; [by right|eauto].
    + rewrite lookup_insert_ne by done. split; [by left|]. by intros [?|?].
Qed.

Lemma build_first_registration regs name :
  preferences (build regs) !! name = first_registration regs name.
Proof.
  unfold first_registration.
  induction regs as [|[n p] regs IH] using rev_ind; [done|].
  rewrite build_snoc, add_employee_preferences, filter_app. cbn [fst snd].
  rewrite filter_cons, filter_nil. cbn [fst].
  destruct (decide (n = name)) as [->|Hne].
  - case_bool_decide as Hin.
    + apply build_dom in Hin as [q Hq]. rewrite IH. rewrite IH in Hq.
      by destruct (filter _ regs) as [|r l].
    + rewrite lookup_insert_eq.
      assert (preferences (build regs) !! name = None) as Hnone.
      { apply eq_None_not_Some. by rewrite build_dom. }
      rewrite IH in Hnone. by destruct (filter _ regs) as [|r l].
  - rewrite app_nil_r. case_bool_decide; [done|].
    by rewrite lookup_insert_ne.
Qed.

(** X7. Registration: whatever sequence of [add_employee] calls built it, the
    employee list of a scheduler has no name twice, holds exactly the names
    that were registered, grows at its end only (a longer sequence of calls
    extends the list of a shorter one), and the preferences have an entry for
    exactly the names of the list. *)
Theorem build_employee_list regs :
  NoDup (employees (build regs)) ∧
  (∀ name, name ∈ employees (build regs) ↔ name ∈ regs.*1) ∧
  (∀ more, employees (build regs) `prefix_of` employees (build (regs ++ more))) ∧
  (∀ name, is_Some (preferences (build regs) !! name) ↔
           name ∈ employees (build regs)).
Proof.
  split_and!.
  - apply build_NoDup.
  - apply build_elem_of.
  - apply build_prefix.
  - apply build_dom.
Qed.

(** X8. The first registration wins: a second [add_employee] under a name
    already registered is ignored, so the plan a scheduler holds for a name
    is the plan of the first call made under that name, and no plan at all
    when there was no such call. *)
Theorem build_first_registration_wins regs name :
  preferences (build regs) !! name = first_registration regs name ∧
  (∀ plan, name ∈ employees (build regs) →
     add_employee name plan (build regs) = build regs).
Proof.
  split; [apply build_first_registration|].
  intros plan Hin. unfold add_employee. by rewrite bool_decide_eq_true_2.
Qed.

(** ** First pass in closed form *)

Lemma pass1_days_closed e plan days st :
  NoDup days →
  preferences st !! e = Some plan →
  (∀ d, d ∈ days → already_scheduled st e d = false) →
  pass1_days e days st =
  Ok (place_days e plan st
        (pass1_days_served plan days (MAX_DAYS_PER_WEEK - days_worked st e))).
Proof.
  intros Hnd. revert st. induction Hnd as [|day rest Hday Hnd IH];
    intros st Hplan Hfree.
  - unfold pass1_days_served. cbn. by rewrite take_nil.
  - cbn [pass1_days]. unfold pass1_days_served. cbn [days_until_empty].
    case_bool_decide as Hcap.
    { replace (MAX_DAYS_PER_WEEK - days_worked st e) with 0 by lia. done. }
    unfold get_plan. rewrite Hplan. cbn [mbind result_bind].
    rewrite (Hfree day) by left.
    assert (∀ d, d ∈ rest → already_scheduled st e d = false) as Hrest
      by (intros d Hd; apply Hfree; by right).
    destruct (plan !! day) as [[|shift others]|] eqn:Hlook.
    + rewrite decide_True by done. cbn. by rewrite take_nil.
    + rewrite decide_False by done. rewrite filter_cons.
      rewrite decide_True by (rewrite Hlook; eauto).
      replace (MAX_DAYS_PER_WEEK - days_worked st e)
        with (S (MAX_DAYS_PER_WEEK - S (days_worked st e))) by lia.
      cbn [take]. unfold place_days. cbn [foldl]. unfold first_choice at 2.
      rewrite Hlook. cbn [mbind option_bind head].
      rewrite IH; [|done|].
      * rewrite days_worked_place, decide_True by done. done.
      * intros d Hd. rewrite already_scheduled_place_other; [by apply Hrest|].
        right. by intros ->.
    + rewrite decide_False by done. rewrite filter_cons.
      rewrite decide_False by (rewrite Hlook; by intros [? ?]).
      by apply IH.
Qed.

Lemma elem_of_days_until_empty plan days d :
  d ∈ days_until_empty plan days → d ∈ days ∧ plan !! d ≠ Some [].
Proof.
  induction days as [|d0 rest IH]; cbn [days_until_empty];
    [by intros ?%elem_of_nil|].
  case_decide as Hd0; [by intros ?%elem_of_nil|].
  intros [->|Hd]%elem_of_cons; [split; [left|done]|].
  destruct (IH Hd). split; [by right|done].
Qed.

Lemma days_until_empty_sublist plan days :
  days_until_empty plan days `sublist_of` days.
Proof.
  induction days as [|d0 rest IH]; cbn [days_until_empty]; [done|].
  case_decide; [apply sublist_nil_l|by apply sublist_skip].
Qed.

Lemma pass1_days_served_sublist plan days budget :
  pass1_days_served plan days budget `sublist_of` days.
Proof.
  unfold pass1_days_served. etrans; [apply sublist_take|].
  etrans; [apply sublist_filter|apply days_until_empty_sublist].
Qed.

Lemma pass1_days_served_first_choice plan days budget d :
  d ∈ pass1_days_served plan days budget → is_Some (first_choice plan d).
Proof.
  unfold pass1_days_served. intros (i & Hi & _)%elem_of_take.
  apply list_elem_of_lookup_2, list_elem_of_filter in Hi as [[shifts Hd] Hin].
  apply elem_of_days_until_empty in Hin as [_ Hne].
  unfold first_choice. rewrite Hd. destruct shifts; [done|]. cbn. eauto.
Qed.

Lemma place_days_cons e plan st d rest :
  place_days e plan st (d :: rest) =
  place_days e plan
    match first_choice plan d with
    | Some s => place e d s st
    | None => st
    end rest.
Proof. reflexivity. Qed.

Lemma place_days_fixed e plan st days :
  employees (place_days e plan st days) = employees st ∧
  preferences (place_days e plan st days) = preferences st.
Proof.
  revert st. induction days as [|d rest IH]; intros st; [done|].
  rewrite place_days_cons.
  destruct (first_choice plan d) as [s|]; [|apply IH].
  by destruct (IH (place e d s st)) as [-> ->].
Qed.

Lemma place_days_schedule e plan st days d s :
  NoDup days →
  schedule (place_days e plan st days) d s =
  schedule st d s ++
  if decide (d ∈ days ∧ first_choice plan d = Some s) then [e] else [].
Proof.
  intros Hnd. revert st. induction Hnd as [|d0 rest Hd0 Hnd IH]; intros st.
  - cbn. rewrite decide_False; [by rewrite app_nil_r|].
    by intros [?%elem_of_nil _].
  - rewrite place_days_cons. rewrite IH.
    destruct (decide (d = d0)) as [->|Hne].
    + rewrite (decide_False (P := d0 ∈ rest ∧ _)) by (by intros [? _]).
      rewrite app_nil_r.
      destruct (first_choice plan d0) as [s0|] eqn:Hfc.
      * rewrite schedule_place. destruct (decide (s0 = s)) as [->|Hs].
        -- rewrite !decide_True; [done|split; [left|done]|done].
        -- rewrite !decide_False; [by rewrite app_nil_r|..].
           ++ intros [_ [= ?]]. done.
           ++ intros [_ ?]. done.
      * rewrite decide_False; [by rewrite app_nil_r|]. by intros [_ ?].
    + assert (schedule
                match first_choice plan d0 with
                | Some s0 => place e d0 s0 st
                | None => st
                end d s = schedule st d s) as ->.
      { destruct (first_choice plan d0); [|done].
        rewrite schedule_place. apply decide_False. by intros [? _]. }
      f_equal. destruct (decide (d ∈ rest ∧ first_choice plan d = Some s))
        as [[? ?]|Hno].
      * rewrite decide_True; [done|]. split; [by right|done].
      * rewrite decide_False; [done|].
        intros [[?|?]%elem_of_cons ?]; [done|]. by apply Hno.
Qed.

Lemma place_days_days_worked e plan st days e' :
  (∀ d, d ∈ days → is_Some (first_choice plan d)) →
  days_worked (place_days e plan st days) e' =
  if decide (e' = e) then days_worked st e + length days
  else days_worked st e'.
Proof.
  revert st. induction days as [|d rest IH]; intros st Hfc.
  - cbn. case_decide; subst; lia.
  - rewrite place_days_cons.
    destruct (Hfc d) as [s Hs]; [left|]. rewrite Hs.
    rewrite IH by (intros d' Hd'; apply Hfc; by right).
    rewrite !days_worked_place. cbn [length].
    case_decide; subst; [rewrite decide_True by done; lia|done].
Qed.

Lemma place_days_other e plan st days e' d :
  e' ≠ e →
  already_scheduled (place_days e plan st days) e' d =
  already_scheduled st e' d.
Proof.
  intros Hne. revert st. induction days as [|d0 rest IH]; intros st; [done|].
  rewrite place_days_cons. rewrite IH.
  destruct (first_choice plan d0); [|done].
  apply already_scheduled_place_other. by left.
Qed.

Lemma pass1_days_other_counter e days st st' e' :
  pass1_days e days st = Ok st' → e' ≠ e →
  days_worked st' e' = days_worked st e'.
Proof.
  intros Hrun Hne. revert st Hrun.
  induction days as [|day rest IH]; intros st; cbn [pass1_days].
  - by intros [= <-].
  - case_bool_decide as Hcap; [by intros [= <-]|].
    intros (plan & _ & H)%bind_Ok.
    destruct (plan !! day) as [[|shift others]|]; [| |by apply IH].
    + destruct (already_scheduled st e day); [by apply IH|by injection H as <-].
    + destruct (already_scheduled st e day); [by apply IH|].
      rewrite (IH _ H), days_worked_place. by rewrite decide_False.
Qed.

Lemma pass1_employees_other_counter emps st st' e' :
  pass1_employees emps st = Ok st' → e' ∉ emps →
  days_worked st' e' = days_worked st e'.
Proof.
  revert st. induction emps as [|e rest IH]; intros st;
    cbn [pass1_employees]; [by intros [= <-]|].
  intros (st1 & H1 & H2)%bind_Ok [Hne Hrest]%not_elem_of_cons.
  rewrite (IH _ H2 Hrest). by apply (pass1_days_other_counter e DAYS).
Qed.

Lemma pass1_employees_closed emps st :
  NoDup emps →
  Forall (λ e, is_Some (preferences st !! e)) emps →
  (∀ e d, e ∈ emps → already_scheduled st e d = false) →
  (∀ e, e ∈ emps → days_worked st e = 0) →
  ∃ s1, pass1_employees emps st = Ok s1 ∧
    (∀ d s, schedule s1 d s =
            schedule st d s ++ filter (λ e, pass1_grants st e d s) emps) ∧
    (∀ e plan, e ∈ emps → preferences st !! e = Some plan →
       days_worked s1 e =
       length (pass1_days_served plan DAYS MAX_DAYS_PER_WEEK)).
Proof.
  intros Hnd. revert st. induction Hnd as [|e rest He Hnd IH];
    intros st Hreg Hfree Hzero.
  - exists st. split; [done|]. split.
    + intros d s. by rewrite filter_nil, app_nil_r.
    + by intros e plan ?%elem_of_nil.
  - apply Forall_cons in Hreg as [[plan Hplan] Hreg].
    pose (st1 := place_days e plan st
                   (pass1_days_served plan DAYS MAX_DAYS_PER_WEEK)).
    assert (pass1_days e DAYS st = Ok st1) as H1.
    { rewrite (pass1_days_closed e plan); [|apply NoDup_DAYS|done|].
      - rewrite (Hzero e) by left. by rewrite Nat.sub_0_r.
      - intros d _. apply Hfree. left. }
    destruct (place_days_fixed e plan st
                (pass1_days_served plan DAYS MAX_DAYS_PER_WEEK))
      as [_ Hprefs]. fold st1 in Hprefs.
    assert (∀ d, d ∈ pass1_days_served plan DAYS MAX_DAYS_PER_WEEK →
                 is_Some (first_choice plan d)) as Hfc
      by (intros d; apply pass1_days_served_first_choice).
    destruct (IH st1) as (s1 & H2 & Hsched & Hcount).
    { by rewrite Hprefs. }
    { intros e' d He'. unfold st1. rewrite place_days_other.
      - apply Hfree. by right.
      - by intros ->. }
    { intros e' He'. unfold st1. rewrite place_days_days_worked by done.
      rewrite decide_False by (by intros ->). apply Hzero. by right. }
    exists s1. split; [|split].
    + cbn [pass1_employees]. by rewrite H1.
    + intros d s. rewrite Hsched. unfold st1 at 1.
      rewrite place_days_schedule
        by (apply (sublist_NoDup _ DAYS);
            [apply NoDup_DAYS|apply pass1_days_served_sublist]).
      rewrite <- app_assoc. f_equal. rewrite filter_cons.
      assert (filter (λ e0, pass1_grants st1 e0 d s) rest =
              filter (λ e0, pass1_grants st e0 d s) rest) as ->.
      { apply list_filter_iff. intros e0. unfold pass1_grants.
        by rewrite Hprefs. }
      assert (pass1_grants st e d s ↔
              d ∈ pass1_days_served plan DAYS MAX_DAYS_PER_WEEK ∧
              first_choice plan d = Some s) as Hiff
        by (unfold pass1_grants; by rewrite Hplan).
      destruct (decide (d ∈ pass1_days_served plan DAYS MAX_DAYS_PER_WEEK ∧
                        first_choice plan d = Some s)) as [Hyes|Hno].
      * by rewrite decide_True by (by apply Hiff).
      * by rewrite decide_False by (by rewrite Hiff).
    + intros e' plan' [->|He']%elem_of_cons Hplan'.
      * rewrite (pass1_employees_other_counter _ _ _ _ H2 He).
        unfold st1. rewrite place_days_days_worked by done.
        rewrite decide_True by done. rewrite (Hzero e) by left.
        assert (plan' = plan) as -> by congruence. done.
      * apply Hcount; [done|]. by rewrite Hprefs.
Qed.

Lemma pass1_build_closed regs :
  ∃ s1, first_pass (build regs) = Ok s1 ∧
    (∀ d s, schedule s1 d s =
            filter (λ e, pass1_grants (build regs) e d s)
              (employees (build regs))) ∧
    (∀ e plan, preferences (build regs) !! e = Some plan →
       days_worked s1 e =
       length (pass1_days_served plan DAYS MAX_DAYS_PER_WEEK)).
Proof.
  destruct (pass1_employees_closed (employees (build regs)) (build regs))
    as (s1 & H1 & Hsched & Hcount).
  - apply build_NoDup.
  - apply build_registered.
  - intros e d _. apply already_scheduled_false. intros s.
    rewrite build_slot_empty. apply not_elem_of_nil.
  - intros e _. apply build_days_worked.
  - exists s1. split; [done|]. split.
    + intros d s. by rewrite Hsched, build_slot_empty.
    + intros e plan Hplan. apply Hcount; [|done].
      apply build_dom. eauto.
Qed.

(** X9. Pass 1 in closed form: on a scheduler built by [add_employee] calls
    alone the first pass ends, every slot then lists, in registration order,
    exactly the employees whose first choice for that day it is — the day
    being one of the first five of their plan in calendar order, counted up
    to the first day with an empty sequence —, and every counter is the
    number of days so served. *)
Theorem pass1_closed_form regs :
  ∃ s1, first_pass (build regs) = Ok s1 ∧
    (∀ d s, schedule s1 d s =
            filter (λ e, pass1_grants (build regs) e d s)
              (employees (build regs))) ∧
    (∀ e plan, preferences (build regs) !! e = Some plan →
       days_worked s1 e =
       length (pass1_days_served plan DAYS MAX_DAYS_PER_WEEK)).
Proof.
  destruct (pass1_build_closed regs) as (s1 & H1 & Hsched & Hcount).
  exists s1. split; [exact H1|]. split; [exact Hsched|exact Hcount].
Qed.

(** ** Plans of at most five days *)

Lemma days_until_empty_all plan days :
  map_Forall (λ _ (shifts : list Shift), shifts ≠ []) plan →
  days_until_empty plan days = days.
Proof.
  intros Hne. induction days as [|d rest IH]; [done|].
  cbn [days_until_empty]. rewrite decide_False; [by rewrite IH|].
  intros Hd. by apply (Hne d [] Hd).
Qed.

Lemma length_plan_days (plan : Plan) :
  length (filter (λ d, is_Some (plan !! d)) DAYS) = size plan.
Proof.
  rewrite <- size_dom.
  transitivity (length (elements (dom plan))); [|reflexivity].
  rewrite <- (calendar_order_ok (dom plan)). unfold calendar_order.
  f_equal. apply list_filter_iff. intros d. by rewrite elem_of_dom.
Qed.

Lemma pass1_days_served_all plan d :
  map_Forall (λ _ (shifts : list Shift), shifts ≠ []) plan →
  size plan ≤ MAX_DAYS_PER_WEEK →
  is_Some (plan !! d) →
  d ∈ pass1_days_served plan DAYS MAX_DAYS_PER_WEEK.
Proof.
  intros Hne Hsize Hd. unfold pass1_days_served.
  rewrite days_until_empty_all by done.
  rewrite take_ge by (by rewrite length_plan_days).
  apply list_elem_of_filter. split; [done|apply elem_of_DAYS].
Qed.

Lemma build_grants regs iter s3 e plan :
  assign_shifts iter (build regs) = Ok s3 →
  preferences (build regs) !! e = Some plan →
  size plan ≤ MAX_DAYS_PER_WEEK →
  map_Forall (λ _ (shifts : list Shift), shifts ≠ []) plan →
  ∀ d s others, plan !! d = Some (s :: others) → e ∈ schedule s3 d s.
Proof.
  intros Hrun3 Hplan Hsize Hne.
  destruct (passes_run iter _ (build_registered regs))
    as (s1 & s3' & H1 & _ & Hrun & _ & P2 & P3).
  assert (s3' = s3) as -> by congruence.
  destruct (pass1_build_closed regs) as (s1' & H1' & Hsched & _).
  assert (s1' = s1) as -> by congruence.
  intros d s others Hd.
  destruct (placements_extends _ _ (placements_trans _ _ _ P2 P3))
    as [Hpre _].
  destruct (Hpre d s) as [k ->]. apply elem_of_app. left.
  rewrite Hsched. apply list_elem_of_filter. split.
  - unfold pass1_grants. rewrite Hplan. split.
    + apply pass1_days_served_all; [done..|]. rewrite Hd. eauto.
    + unfold first_choice. by rewrite Hd.
  - apply build_dom. eauto.
Qed.

Lemma assign_shifts_build_Ok iter regs :
  ∃ s3, assign_shifts iter (build regs) = Ok s3.
Proof.
  destruct (passes_run iter _ (build_registered regs))
    as (s1 & s3 & _ & _ & Hrun & _). eauto.
Qed.

(** X10. Wishes of at most five days are all granted: when the plan of a
    registered employee names at most [MAX_DAYS_PER_WEEK] days and gives each
    of them at least one shift, a run of [assign_shifts] on the freshly built
    scheduler ends with the employee in the first-choice shift of every day
    of the plan, whatever the other employees asked for. *)
Theorem first_choices_granted regs iter e plan :
  preferences (build regs) !! e = Some plan →
  size plan ≤ MAX_DAYS_PER_WEEK →
  map_Forall (λ _ (shifts : list Shift), shifts ≠ []) plan →
  ∃ s3, assign_shifts iter (build regs) = Ok s3 ∧
    ∀ d s others, plan !! d = Some (s :: others) → e ∈ schedule s3 d s.
Proof.
  intros Hplan Hsize Hne.
  destruct (assign_shifts_build_Ok iter regs) as [s3 Hrun].
  exists s3. split; [exact Hrun|].
  exact (build_grants regs iter s3 e plan Hrun Hplan Hsize Hne).
Qed.

Lemma first_choices_granted_witness :
  let plan := plan_of [(Monday, [Morning])] in
  preferences two_mornings !! "Bob" = Some plan ∧
  size plan ≤ MAX_DAYS_PER_WEEK ∧
  map_Forall (λ _ (shifts : list Shift), shifts ≠ []) plan ∧
  ∃ s3, assign_shifts elements two_mornings = Ok s3 ∧
    ∀ d s others, plan !! d = Some (s :: others) → "Bob" ∈ schedule s3 d s.
Proof.
  assert (preferences two_mornings !! "Bob" =
          Some (plan_of [(Monday, [Morning])])) as H1 by reflexivity.
  assert (size (plan_of [(Monday, [Morning])]) ≤ MAX_DAYS_PER_WEEK) as H2
    by (vm_compute; lia).
  assert (map_Forall (λ _ (shifts : list Shift), shifts ≠ [])
            (plan_of [(Monday, [Morning])])) as H3
    by (apply (bool_decide_unpack _); vm_compute; exact I).
  split; [exact H1|]. split; [exact H2|]. split; [exact H3|].
  exact (first_choices_granted
           [("Alice", plan_of [(Monday, [Morning])]);
            ("Bob", plan_of [(Monday, [Morning])])]
           elements "Bob" _ H1 H2 H3).
Defined.

(** ** What [main] lets through *)

Lemma remove_first_Permutation shift l :
  shift ∈ l → l ≡ₚ shift :: remove_first shift l.
Proof.
  induction l as [|x rest IH]; [by intros ?%elem_of_nil|].
  cbn [remove_first]. case_decide as Hx; [by subst|].
  intros [->|Hin]%elem_of_cons; [done|].
  rewrite (IH Hin) at 1. apply Permutation_swap.
Qed.

Lemma read_shift_Some capitalize strip available inputs shift rest :
  read_shift strip capitalize available inputs = Some (shift, rest) →
  shift ∈ available.
Proof.
  induction inputs as [|line inputs IH]; [done|]. cbn [read_shift].
  destruct (shift_of_string _) as [x|]; [|done].
  case_bool_decide as Hin; [|done]. by intros [= <- _].
Qed.

Lemma read_priorities_Permutation capitalize strip rounds ps available
    inputs ps' rest :
  length available ≤ rounds →
  read_priorities strip capitalize rounds ps available inputs
    = Some (ps', rest) →
  ps' ≡ₚ ps ++ available.
Proof.
  revert ps available inputs.
  induction rounds as [|rounds IH]; intros ps available inputs Hlen;
    cbn [read_priorities].
  - destruct available; [|cbn in Hlen; lia].
    intros [= <- _]. by rewrite app_nil_r.
  - destruct available as [|x l] eqn:Hav;
      [intros [= <- _]; by rewrite app_nil_r|].
    rewrite <- Hav in *.
    destruct (read_shift strip capitalize available inputs)
      as [[shift rest1]|] eqn:Hread; [|done].
    cbn [mbind option_bind]. intros Hrec.
    pose proof (read_shift_Some _ _ _ _ _ _ Hread) as Hin.
    pose proof (remove_first_Permutation shift available Hin) as Hperm.
    apply IH in Hrec.
    + rewrite Hrec, <- app_assoc. cbn [app]. by rewrite <- Hperm.
    + apply Permutation_length in Hperm. cbn [length] in Hperm. lia.
Qed.

Lemma read_day_Some capitalize strip preferences inputs day rest :
  read_day strip capitalize preferences inputs = Some (day, rest) →
  preferences !! day = None.
Proof.
  induction inputs as [|line inputs IH]; [done|]. cbn [read_day].
  destruct (day_of_string _) as [d|]; [|done].
  case_bool_decide as Hin; [done|]. intros [= <- _].
  by apply eq_None_not_Some.
Qed.

Lemma read_plan_Some capitalize strip num_prefs preferences inputs plan rest :
  read_plan strip capitalize num_prefs preferences inputs = Some (plan, rest) →
  size plan = size preferences + num_prefs ∧
  (map_Forall (λ _ (shifts : list Shift), shifts ≡ₚ SHIFTS) preferences →
   map_Forall (λ _ (shifts : list Shift), shifts ≡ₚ SHIFTS) plan).
Proof.
  revert preferences inputs.
  induction num_prefs as [|n IH]; intros preferences inputs; cbn [read_plan].
  - intros [= <- _]. split; [lia|done].
  - destruct (read_day strip capitalize preferences inputs)
      as [[day rest1]|] eqn:Hday; [|done]. cbn [mbind option_bind].
    destruct (read_priorities strip capitalize 3 [] SHIFTS rest1)
      as [[ps rest2]|] eqn:Hps; [|done]. cbn [mbind option_bind].
    intros [Hsize Hall]%IH.
    apply read_day_Some in Hday.
    apply read_priorities_Permutation in Hps; [|done].
    split.
    + rewrite Hsize, map_size_insert_None by done. lia.
    + intros Hprefs. apply Hall. by apply map_Forall_insert_2.
Qed.

Lemma read_num_prefs_Some int_of strip inputs num_prefs rest :
  read_num_prefs int_of strip inputs = Some (num_prefs, rest) →
  (1 ≤ num_prefs ≤ 5)%Z.
Proof.
  induction inputs as [|line inputs IH]; [done|]. cbn [read_num_prefs].
  destruct (int_of (strip line)) as [n|]; [|done].
  case_bool_decide; [|done]. by intros [= <- _].
Qed.

Lemma read_name_Some strip inputs name rest :
  read_name strip inputs = Some (name, rest) → name ≠ "".
Proof.
  induction inputs as [|line inputs IH]; [done|]. cbn [read_name].
  case_bool_decide; [done|]. by intros [= <- _].
Qed.

Lemma read_num_employees_Some int_of inputs num_employees rest :
  read_num_employees int_of inputs = Some (num_employees, rest) →
  (1 ≤ num_employees)%Z.
Proof.
  induction inputs as [|line inputs IH]; [done|]. cbn [read_num_employees].
  destruct (int_of line) as [n|]; [|done].
  case_bool_decide; [done|]. intros [= <- _]. lia.
Qed.

Lemma read_employees_Some int_of strip capitalize n regs inputs st rest :
  Forall (λ r, r.1 ≠ "" ∧ plan_valid r.2) regs →
  read_employees int_of strip capitalize n (build regs) inputs
    = Some (st, rest) →
  ∃ more, st = build (regs ++ more) ∧ length more = n ∧
          Forall (λ r, r.1 ≠ "" ∧ plan_valid r.2) (regs ++ more).
Proof.
  revert regs inputs. induction n as [|n IH]; intros regs inputs Hregs;
    cbn [read_employees].
  - intros [= <- _]. exists []. by rewrite app_nil_r.
  - destruct (read_name strip inputs) as [[name rest1]|] eqn:Hname; [|done].
    cbn [mbind option_bind].
    destruct (read_num_prefs int_of strip rest1)
      as [[num_prefs rest2]|] eqn:Hnum; [|done]. cbn [mbind option_bind].
    destruct (read_plan strip capitalize (Z.to_nat num_prefs) ∅ rest2)
      as [[plan rest3]|] eqn:Hplan; [|done]. cbn [mbind option_bind].
    apply read_name_Some in Hname. apply read_num_prefs_Some in Hnum.
    apply read_plan_Some in Hplan as [Hsize Hall].
    rewrite map_size_empty in Hsize.
    change (add_employee name plan (build regs))
      with (add_employee (name, plan).1 (name, plan).2 (build regs)).
    rewrite <- build_snoc. intros Hrec.
    apply IH in Hrec as (more & -> & Hlen & Hvalid).
    + exists ((name, plan) :: more). rewrite <- app_assoc in *.
      split; [done|]. split; [cbn; lia|done].
    + apply Forall_app. split; [done|]. apply Forall_singleton.
      split; [done|]. cbn [snd]. split.
      * unfold MAX_DAYS_PER_WEEK. lia.
      * apply Hall. apply map_Forall_empty.
Qed.

Lemma main_scheduler_Some int_of strip capitalize inputs st :
  main_scheduler int_of strip capitalize inputs = Some st →
  ∃ regs, st = build regs ∧ 1 ≤ length regs ∧
          Forall (λ r, r.1 ≠ "" ∧ plan_valid r.2) regs.
Proof.
  unfold main_scheduler.
  destruct (read_num_employees int_of inputs)
    as [[num_employees rest]|] eqn:Hnum; [|done]. cbn [mbind option_bind].
  destruct (read_employees int_of strip capitalize
              (Z.to_nat num_employees) init rest)
    as [[scheduler rest']|] eqn:Hread; [|done]. cbn [mbind option_bind].
  intros [= <-]. apply read_num_employees_Some in Hnum.
  apply (read_employees_Some _ _ _ _ []) in Hread as (more & -> & Hlen & Hall);
    [|apply Forall_nil_2].
  exists more. split; [done|]. split; [lia|done].
Qed.

(** X11. The input checks of [main]: whatever is typed, when the dialogue of
    [main] is through, the scheduler is the one the [add_employee] calls of
    at least one employee build, no name is empty, and every plan handed to
    [add_employee] has between one and five days, each with the three
    shifts, every one once. *)
Theorem main_registers_valid_plans int_of strip capitalize inputs st :
  main_scheduler int_of strip capitalize inputs = Some st →
  ∃ regs, st = build regs ∧ 1 ≤ length regs ∧
    Forall (λ r, r.1 ≠ "" ∧
                 1 ≤ size r.2 ≤ MAX_DAYS_PER_WEEK ∧
                 map_Forall (λ _ (shifts : list Shift), shifts ≡ₚ SHIFTS) r.2)
      regs.
Proof.
  intros (regs & -> & Hlen & Hall)%main_scheduler_Some.
  exists regs. split; [done|]. split; [done|].
  eapply Forall_impl; [exact Hall|]. by intros r [? [? ?]].
Qed.

Lemma main_registers_valid_plans_witness :
  let st := default init (main_scheduler sample_int_of id id sample_dialogue) in
  main_scheduler sample_int_of id id sample_dialogue = Some st ∧
  ∃ regs, st = build regs ∧ 1 ≤ length regs ∧
    Forall (λ r, r.1 ≠ "" ∧
                 1 ≤ size r.2 ≤ MAX_DAYS_PER_WEEK ∧
                 map_Forall (λ _ (shifts : list Shift), shifts ≡ₚ SHIFTS) r.2)
      regs.
Proof.
  assert (main_scheduler sample_int_of id id sample_dialogue =
          Some (default init
                  (main_scheduler sample_int_of id id sample_dialogue))) as H
    by (vm_compute; reflexivity).
  split; [exact H|].
  exact (main_registers_valid_plans sample_int_of id id sample_dialogue _ H).
Defined.

(** ** A run of [main] *)

Lemma first_registration_elem_of regs name plan :
  first_registration regs name = Some plan → (name, plan) ∈ regs.
Proof.
  unfold first_registration.
  destruct (filter (λ r, r.1 = name) regs) as [|r l] eqn:Hfilter; [done|].
  intros [= <-].
  assert (r ∈ filter (λ r, r.1 = name) regs) as Hin
    by (rewrite Hfilter; left).
  apply list_elem_of_filter in Hin as [<- Hin]. by destruct r.
Qed.

Lemma build_plans_valid regs e plan :
  Forall (λ r, r.1 ≠ "" ∧ plan_valid r.2) regs →
  preferences (build regs) !! e = Some plan →
  plan_valid plan.
Proof.
  intros Hall Hplan. rewrite build_first_registration in Hplan.
  apply first_registration_elem_of in Hplan.
  rewrite Forall_forall in Hall. by destruct (Hall _ Hplan).
Qed.

Lemma plan_valid_no_empty plan :
  plan_valid plan →
  map_Forall (λ _ (shifts : list Shift), shifts ≠ []) plan.
Proof.
  intros [_ Hall] d shifts Hd ->.
  by apply (Permutation_nil_cons (Hall d [] Hd)).
Qed.

Lemma build_valid_no_empty_sequence regs :
  Forall (λ r, r.1 ≠ "" ∧ plan_valid r.2) regs →
  no_empty_sequence (build regs).
Proof.
  intros Hall e plan Hplan. apply plan_valid_no_empty.
  by apply (build_plans_valid regs e).
Qed.

Lemma resolve_conflicts_adds_nothing iter st s1 :
  set_order iter →
  registered st →
  no_empty_sequence st →
  first_pass st = Ok s1 →
  assign_shifts iter st = Ok (_ensure_minimum_coverage s1).
Proof.
  intros Hiter Hreg Hne H1. unfold assign_shifts. rewrite H1.
  cbn [mbind result_bind]. unfold first_pass in H1.
  unfold _resolve_conflicts.
  pose proof (pass1_employees_placements _ _ _ H1) as P1.
  pose proof (ensure_minimum_coverage_placements s1) as P2.
  pose proof (placements_trans _ _ _ P1 P2) as P12.
  rewrite (placements_employees _ _ P2).
  assert (∀ e, e ∈ employees s1 →
            settled (_ensure_minimum_coverage s1) e) as Hset.
  { intros e He. apply (placements_settled s1); [done|].
    apply (pass1_employees_settled (employees st) st); [done..|].
    by rewrite <- (placements_employees _ _ P1). }
  destruct (resolve_employees_settled SHIFTS iter iter _ _
              Hiter Hiter Hset) as [_ Hok].
  apply Hok.
  rewrite (placements_preferences _ _ P12), (placements_employees _ _ P1).
  exact Hreg.
Qed.

(** X12. In a run of [main] the third pass places nobody: the input checks
    leave no day of a plan without a shift, so once the dialogue is through
    the first pass ends, and [assign_shifts] ends in the scheduler the first
    two passes built, in whatever order the sets of missing days are walked.
    The schedule [main] displays is thereby fixed by what was typed. *)
Theorem main_run_fixed_by_two_passes int_of strip capitalize inputs st :
  main_scheduler int_of strip capitalize inputs = Some st →
  ∃ s1, first_pass st = Ok s1 ∧
    ∀ iter, set_order iter →
      assign_shifts iter st = Ok (_ensure_minimum_coverage s1).
Proof.
  intros (regs & -> & _ & Hall)%main_scheduler_Some.
  destruct (pass1_employees_total _ _ (build_registered regs)) as [s1 H1].
  exists s1. split; [exact H1|]. intros iter Hiter.
  apply resolve_conflicts_adds_nothing; [done|apply build_registered| |done].
  by apply build_valid_no_empty_sequence.
Qed.

Lemma main_run_fixed_by_two_passes_witness :
  let st := default init (main_scheduler sample_int_of id id sample_dialogue) in
  main_scheduler sample_int_of id id sample_dialogue = Some st ∧
  ∃ s1, first_pass st = Ok s1 ∧
    ∀ iter, set_order iter →
      assign_shifts iter st = Ok (_ensure_minimum_coverage s1).
Proof.
  assert (main_scheduler sample_int_of id id sample_dialogue =
          Some (default init
                  (main_scheduler sample_int_of id id sample_dialogue))) as H
    by (vm_compute; reflexivity).
  split; [exact H|].
  exact (main_run_fixed_by_two_passes sample_int_of id id sample_dialogue _ H).
Defined.

(** ** What was typed and what is granted *)















